(** * The Simon game of [simon.js]

    A shallow embedding of the [simonGame] closure (the game logic of
    [src/simon.js], lines 39-194) and the properties of its state machine,
    followed by the controller that drives it (lines 200-449).

    Modelling choices, all read off the source:
    - JavaScript numbers that hold integers ([state], [round], [pressN],
      button indices, the argument of [setState]) are [Z];
    - the closure variables [state], [round], [pressN], [strict] and
      [sequence] are the fields of one record, threaded explicitly
      through every operation;
    - [sequence[i]] is [index]: [None] stands for [undefined], which is
      what JavaScript yields outside the bounds of an array;
    - [Math.random()] is an input of [nextRound] and [start]: the
      rational [r] it returned.  [Math.floor(r * 3.99)] is computed
      exactly, over [Q];
    - [console.log] in [setState] only writes to the console and is
      left out. *)

From Stdlib Require Import ZArith QArith Qround List Bool Lia Lqa Wf_nat.
Import ListNotations.

Local Open Scope Z_scope.

(** ** The state codes of [gameState.states] *)

Module states.
Definition powerOff : Z := 0.
Definition powerOn : Z := 1.
Definition start : Z := 2.
Definition addRandom : Z := 3.
Definition comDemo : Z := 4.
Definition playerSequence : Z := 5.
Definition mistake : Z := 6.
Definition allCorrect : Z := 7.
Definition win : Z := 8.
End states.

Definition MAXROUND : Z := 20.

(** ** The closure variables *)

Record Game : Type := mkGame {
  state : Z;
  round : Z;
  pressN : Z;
  strict : bool;
  sequence : list Z
}.

(** [var state = states.powerOff; var round = 0; var pressN = 0;
    var strict = false; var sequence = [];] *)
Definition init : Game :=
  {| state := states.powerOff; round := 0; pressN := 0; strict := false;
     sequence := [] |}.

(** Assignments to one variable. *)
Definition with_state (s : Z) (g : Game) : Game :=
  {| state := s; round := round g; pressN := pressN g; strict := strict g;
     sequence := sequence g |}.

Definition with_round (n : Z) (g : Game) : Game :=
  {| state := state g; round := n; pressN := pressN g; strict := strict g;
     sequence := sequence g |}.

Definition with_pressN (n : Z) (g : Game) : Game :=
  {| state := state g; round := round g; pressN := n; strict := strict g;
     sequence := sequence g |}.

Definition with_strict (b : bool) (g : Game) : Game :=
  {| state := state g; round := round g; pressN := pressN g; strict := b;
     sequence := sequence g |}.

Definition with_sequence (l : list Z) (g : Game) : Game :=
  {| state := state g; round := round g; pressN := pressN g;
     strict := strict g; sequence := l |}.

(** ** JavaScript primitives used by the engine *)

(** [l[i]]: the element at [i], [None] for [undefined]. *)
Definition index (l : list Z) (i : Z) : option Z :=
  if i <? 0 then None else nth_error l (Z.to_nat i).

(** [b != v] for a number [b] and an array element [v]: a number is
    never loosely equal to [undefined]. *)
Definition neq (b : Z) (v : option Z) : bool :=
  match v with
  | Some x => negb (b =? x)
  | None => true
  end.

(** [l.length] *)
Definition len (l : list Z) : Z := Z.of_nat (length l).

(** [Math.floor(r * 3.99)], for [r] the value of [Math.random()]. *)
Definition randomSignal (r : Q) : Z := Qfloor (r * (399 # 100)).

(** ** The operations *)

(** [gameState.setState] *)
Definition setState (n : Z) (g : Game) : Game :=
  if (0 <=? n) && (n <=? states.win) then with_state n g else g.

(** [nextRound] *)
Definition nextRound (r : Q) (g : Game) : Game :=
  let g := with_pressN 0 g in
  if round g + 1 >? MAXROUND then
    setState states.win g
  else
    let g := with_round (round g + 1) g in
    let g := with_sequence (sequence g ++ [randomSignal r]) g in
    setState states.comDemo g.

(** [press]: the returned boolean and the variables afterwards. *)
Definition press (btnI : Z) (g : Game) : bool * Game :=
  let s := state g in
  if negb ((s =? states.powerOn) || (s =? states.playerSequence)) then
    (false, g)
  else if negb (s =? states.playerSequence) then (true, g)
  else
    let g := with_pressN (pressN g + 1) g in
    if neq btnI (index (sequence g) (pressN g - 1)) then
      (true, setState states.mistake (with_pressN 0 g))
    else if pressN g =? len (sequence g) then
      (true, setState states.allCorrect g)
    else (true, g).

(** [reset] *)
Definition reset (g : Game) : Game :=
  with_pressN 0 (with_round 0 (with_sequence [] g)).

(** [start] *)
Definition start (r : Q) (g : Game) : Game :=
  nextRound r (reset g).

(** [togglePower] *)
Definition togglePower (g : Game) : Game :=
  if state g =? states.powerOff then reset (setState states.powerOn g)
  else with_strict false (setState states.powerOff g).

(** [toggleStrict] *)
Definition toggleStrict (g : Game) : Game :=
  with_strict (negb (strict g)) g.

(** ** Runs of the public operations *)

Inductive Op : Type :=
| OStart (r : Q)
| ONextRound (r : Q)
| OPress (btnI : Z)
| OTogglePower
| OToggleStrict
| OSetState (n : Z).

Definition step (g : Game) (o : Op) : Game :=
  match o with
  | OStart r => start r g
  | ONextRound r => nextRound r g
  | OPress i => snd (press i g)
  | OTogglePower => togglePower g
  | OToggleStrict => toggleStrict g
  | OSetState n => setState n g
  end.

(** The variables after the calls [ops], made in order from [g]. *)
Definition run (g : Game) (ops : list Op) : Game := fold_left step ops g.

(** The engine after [ops] from the initial values of the variables. *)
Definition after (ops : list Op) : Game := run init ops.

(** The two invariants of the data model. *)
Definition length_is_round (g : Game) : Prop := len (sequence g) = round g.

Definition pressN_in_bounds (g : Game) : Prop :=
  0 <= pressN g <= len (sequence g).

(** [lo <= r < hi] describes, within [0, 1), the values of the random
    source that [randomSignal] sends to [k]. *)
Definition preimage (k : Z) (lo hi : Q) : Prop :=
  forall r : Q, (0 <= r)%Q -> (r < 1)%Q ->
    (randomSignal r = k <-> (lo <= r)%Q /\ (r < hi)%Q).

(** ** Predicates on the operations of a run *)

(** The value of [Math.random()] an operation consumes lies in [0, 1). *)
Definition random_in_unit (o : Op) : Prop :=
  match o with
  | OStart r | ONextRound r => (0 <= r)%Q /\ (r < 1)%Q
  | _ => True
  end.

Definition signals (l : list Z) : Prop := Forall (fun x => 0 <= x <= 3) l.

(** Operations that do not call [reset]. *)
Definition no_reset (o : Op) : Prop :=
  match o with
  | OStart _ | OTogglePower => False
  | _ => True
  end.

Ltac codes :=
  unfold states.powerOff, states.powerOn, states.start, states.addRandom,
    states.comDemo, states.playerSequence, states.mistake,
    states.allCorrect, states.win, MAXROUND in *.

(** * The controller [SimonController] ([src/simon.js], lines 200-449)

    The controller owns the four buttons, the speed of the demo and the
    timers.  Modelling choices:
    - the functions handed to [timeout] are the constructors of
      [Callback], each holding what its closure captured; a timer is
      pending from [timeout] until it fires or is cancelled, and any
      pending timer may fire next (the delays are recorded, not timed);
    - [timeoutStack] is the array of promises, the last element on top;
      promises are numbered in the order of their creation;
    - [getSequence] returns the engine's array itself: a reference is
      the number of arrays the engine's [reset] had abandoned when the
      array was created, so the live array is [length abandoned];
    - [buttons[i].light] on a missing button raises a TypeError: the
      handler stops there, with what it had done so far ([Thrown]);
    - the sounds played are appended to [sounds]. *)

Module CONFIG.
Definition playerPressMS : Z := 400.
Definition comPressMS : Z := 600.
Definition startComTimeoutMS : Z := 1100.
Definition speedIncrement : Z := 150.
Definition incrementRounds : list Z := [5; 9; 13].
End CONFIG.

Inductive Sound : Type :=
| ButtonSound (i : Z)
| MistakeSound
| SwitchSound.

(** The functions passed to [timeout]. *)
Inductive Callback : Type :=
| CbLightOff (i : Z) (nextState : option Z)
    (* lightColor: btn.lit = false; setState(nextState) if defined *)
| CbLightSequence (seq : nat) (lightMS : Z) (timeoutMS : option Z) (i : Z)
    (* lightSequence: lightSequence(seq, lightMS, timeoutMS, i + 1) *)
| CbNextRound
    (* pressColor, allCorrect: nextRound, incrementSpeed, demo or win *)
| CbMistake
    (* pressColor, mistake: start again when strict, else demo again *)
| CbWinLight (i : Z)
    (* win: buttons[i].light() *)
| CbWinOff
    (* win: every button unlit *)
| CbWinAgain
    (* win: win(true) *)
| CbStart.
    (* win(true): ctrl.start *)

Record Timer : Type := mkTimer {
  promise : nat;
  delay : option Z;
  callback : Callback
}.

Record Ctrl : Type := mkCtrl {
  game : Game;
  abandoned : list (list Z);
  comTimeoutMS : option Z;
  lit : list bool;
  timeoutStack : list nat;
  pending : list Timer;
  promises : nat;
  sounds : list Sound
}.

(** The controller when the page is loaded: [comTimeoutMS: null], four
    unlit buttons, no timer. *)
Definition loaded : Ctrl :=
  {| game := init; abandoned := []; comTimeoutMS := None;
     lit := [false; false; false; false]; timeoutStack := [];
     pending := []; promises := 0; sounds := [] |}.

Definition with_game (g : Game) (c : Ctrl) : Ctrl :=
  {| game := g; abandoned := abandoned c; comTimeoutMS := comTimeoutMS c;
     lit := lit c; timeoutStack := timeoutStack c; pending := pending c;
     promises := promises c; sounds := sounds c |}.

Definition with_abandoned (l : list (list Z)) (c : Ctrl) : Ctrl :=
  {| game := game c; abandoned := l; comTimeoutMS := comTimeoutMS c;
     lit := lit c; timeoutStack := timeoutStack c; pending := pending c;
     promises := promises c; sounds := sounds c |}.

Definition with_comTimeoutMS (ms : option Z) (c : Ctrl) : Ctrl :=
  {| game := game c; abandoned := abandoned c; comTimeoutMS := ms;
     lit := lit c; timeoutStack := timeoutStack c; pending := pending c;
     promises := promises c; sounds := sounds c |}.

Definition with_lit (l : list bool) (c : Ctrl) : Ctrl :=
  {| game := game c; abandoned := abandoned c;
     comTimeoutMS := comTimeoutMS c; lit := l;
     timeoutStack := timeoutStack c; pending := pending c;
     promises := promises c; sounds := sounds c |}.

Definition with_timeoutStack (l : list nat) (c : Ctrl) : Ctrl :=
  {| game := game c; abandoned := abandoned c;
     comTimeoutMS := comTimeoutMS c; lit := lit c; timeoutStack := l;
     pending := pending c; promises := promises c; sounds := sounds c |}.

Definition with_pending (l : list Timer) (c : Ctrl) : Ctrl :=
  {| game := game c; abandoned := abandoned c;
     comTimeoutMS := comTimeoutMS c; lit := lit c;
     timeoutStack := timeoutStack c; pending := l; promises := promises c;
     sounds := sounds c |}.

Definition play (s : Sound) (c : Ctrl) : Ctrl :=
  {| game := game c; abandoned := abandoned c;
     comTimeoutMS := comTimeoutMS c; lit := lit c;
     timeoutStack := timeoutStack c; pending := pending c;
     promises := promises c; sounds := sounds c ++ [s] |}.

(** What a handler leaves: its effects, and whether it ran to its end
    or was cut short by a TypeError. *)
Inductive Outcome : Type :=
| Done (c : Ctrl)
| Thrown (c : Ctrl).

Definition final (o : Outcome) : Ctrl :=
  match o with Done c | Thrown c => c end.

Definition andThen (o : Outcome) (k : Ctrl -> Outcome) : Outcome :=
  match o with
  | Done c => k c
  | Thrown c => Thrown c
  end.

Notation "c <- o ;; k" := (andThen o (fun c => k))
  (at level 61, o at next level, right associativity).

(** [null] as a number. *)
Definition toNumber (v : option Z) : Z :=
  match v with Some n => n | None => 0 end.

Fixpoint set_nth {A : Type} (n : nat) (x : A) (l : list A) : list A :=
  match l, n with
  | [], _ => []
  | _ :: l, O => x :: l
  | y :: l, S n => y :: set_nth n x l
  end.

(** ** The engine as the controller calls it ([var sg = simonGame]) *)

Module sg.

Definition getRound (c : Ctrl) : Z := round (game c).

(** The array itself, not a copy. *)
Definition getSequence (c : Ctrl) : nat := length (abandoned c).

Definition getState (c : Ctrl) : Z := state (game c).

Definition getStrict (c : Ctrl) : bool := strict (game c).

Definition isState (s : Z) (c : Ctrl) : bool := state (game c) =? s.

Definition nextRound (r : Q) (c : Ctrl) : Ctrl :=
  with_game (nextRound r (game c)) c.

Definition press (btnI : Z) (c : Ctrl) : bool * Ctrl :=
  (fst (press btnI (game c)), with_game (snd (press btnI (game c))) c).

Definition setState (n : Z) (c : Ctrl) : Ctrl :=
  with_game (setState n (game c)) c.

(** [reset] inside [start] abandons the array for a new one. *)
Definition start (r : Q) (c : Ctrl) : Ctrl :=
  with_game (start r (game c))
    (with_abandoned (abandoned c ++ [sequence (game c)]) c).

(** So does [reset] inside [togglePower], in the state [powerOff]. *)
Definition togglePower (c : Ctrl) : Ctrl :=
  with_game (togglePower (game c))
    (if state (game c) =? states.powerOff
     then with_abandoned (abandoned c ++ [sequence (game c)]) c
     else c).

Definition toggleStrict (c : Ctrl) : Ctrl :=
  with_game (toggleStrict (game c)) c.

End sg.

(** The array behind a reference. *)
Definition deref (c : Ctrl) (a : nat) : list Z :=
  if (a =? length (abandoned c))%nat then sequence (game c)
  else nth a (abandoned c) [].

(** ** The controller's functions *)

(** [timeoutStack.pop()] *)
Definition pop (l : list nat) : option nat * list nat :=
  match rev l with
  | [] => (None, [])
  | p :: r => (Some p, rev r)
  end.

(** [$timeout.cancel(p)] *)
Definition cancel (p : option nat) (c : Ctrl) : Ctrl :=
  match p with
  | Some n =>
      with_pending
        (filter (fun t => negb (promise t =? n)%nat) (pending c)) c
  | None => c
  end.

(** The loop of [clearTimeouts], [n] iterations from now. *)
Fixpoint clearLoop (n : nat) (c : Ctrl) : Ctrl :=
  match n with
  | O => c
  | S n =>
      let (p, rest) := pop (timeoutStack c) in
      clearLoop n (cancel p (with_timeoutStack rest c))
  end.

Definition clearTimeouts (c : Ctrl) : Ctrl :=
  clearLoop (length (timeoutStack c)) c.

(** [timeout(func, ms)] *)
Definition timeout (func : Callback) (ms : option Z) (c : Ctrl) : Ctrl :=
  {| game := game c; abandoned := abandoned c;
     comTimeoutMS := comTimeoutMS c; lit := lit c;
     timeoutStack := timeoutStack c ++ [promises c];
     pending := pending c ++
       [{| promise := promises c; delay := ms; callback := func |}];
     promises := S (promises c); sounds := sounds c |}.

(** [ctrl.buttons[i]]: the index of the button, [None] for
    [undefined]. *)
Definition button (c : Ctrl) (i : option Z) : option Z :=
  match i with
  | Some i =>
      if (0 <=? i) && (i <? Z.of_nat (length (lit c))) then Some i
      else None
  | None => None
  end.

(** [ColorButton.light] of button [i] *)
Definition light (i : Z) (disableSound : bool) (c : Ctrl) : Ctrl :=
  let c := if negb disableSound then play (ButtonSound i) c else c in
  with_lit (set_nth (Z.to_nat i) true (lit c)) c.

(** [btn.lit = false] for button [i] *)
Definition unlight (i : Z) (c : Ctrl) : Ctrl :=
  with_lit (set_nth (Z.to_nat i) false (lit c)) c.

(** [buttons.map(function(btn) { btn.lit = false; })] *)
Definition unlightAll (c : Ctrl) : Ctrl :=
  with_lit (map (fun _ => false) (lit c)) c.

(** [lightColor(i, ms, options)], with the two options spelled out. *)
Definition lightColor (i : option Z) (ms : Z) (disableSound : bool)
    (nextState : option Z) (c : Ctrl) : Outcome :=
  match button c i with
  | None => Thrown c
  | Some b =>
      Done (timeout (CbLightOff b nextState) (Some ms)
              (light b disableSound c))
  end.

(** [lightSequence(seq, lightMS, timeoutMS, i)] *)
Definition lightSequence (seq : nat) (lightMS : Z) (timeoutMS : option Z)
    (i : Z) (c : Ctrl) : Outcome :=
  if i <? len (deref c seq) - 1 then
    c <- lightColor (index (deref c seq) i) lightMS false None c ;;
    Done (timeout (CbLightSequence seq lightMS timeoutMS i) timeoutMS c)
  else if i =? len (deref c seq) - 1 then
    lightColor (index (deref c seq) i) lightMS false
      (Some states.playerSequence) c
  else Done c.

Definition doComDemo (c : Ctrl) : Outcome :=
  lightSequence (sg.getSequence c) CONFIG.comPressMS (comTimeoutMS c) 0 c.

Definition getPowerState (c : Ctrl) : bool :=
  negb (sg.isState states.powerOff c).

Definition getStrictState (c : Ctrl) : bool := sg.getStrict c.

(** The text of the counter: [''], ['--'] or the round. *)
Inductive CountText : Type :=
| Blank
| Dashes
| Count (n : Z).

Definition getCountText (c : Ctrl) : CountText :=
  if getPowerState c then
    if sg.isState states.powerOn c then Dashes else Count (sg.getRound c)
  else Blank.

Definition incrementSpeed (c : Ctrl) : Ctrl :=
  fold_left
    (fun c r =>
       if sg.getRound c =? r then
         with_comTimeoutMS
           (Some (toNumber (comTimeoutMS c) - CONFIG.speedIncrement)) c
       else c)
    CONFIG.incrementRounds c.

(** The controller's [reset] *)
Definition resetUI (c : Ctrl) : Ctrl :=
  unlightAll
    (with_comTimeoutMS (Some CONFIG.startComTimeoutMS) (clearTimeouts c)).

(** [win(second)] *)
Definition win (second : bool) (c : Ctrl) : Ctrl :=
  let c := light 1 false c in
  let c := timeout (CbWinLight 2) (Some 100) c in
  let c := timeout (CbWinLight 3) (Some 225) c in
  let c := timeout (CbWinLight 0) (Some 450) c in
  let c := timeout CbWinOff (Some 1000) c in
  if negb second then timeout CbWinAgain (Some 2000) c
  else timeout CbStart (Some 2000) c.

Module ctrl.

Definition start (r : Q) (c : Ctrl) : Outcome :=
  if getPowerState c then doComDemo (sg.start r (resetUI c))
  else Done c.

Definition pressColor (i : Z) (c : Ctrl) : Outcome :=
  let (accepted, c) := sg.press i c in
  if negb accepted then Done c
  else if sg.getState c =? states.allCorrect then
    c <- lightColor (Some i) CONFIG.playerPressMS false None c ;;
    Done (timeout CbNextRound (Some 1600) c)
  else if sg.getState c =? states.mistake then
    c <- lightColor (Some i) 1000 true None c ;;
    Done (timeout CbMistake (Some 1500) (play MistakeSound c))
  else lightColor (Some i) CONFIG.playerPressMS false None c.

Definition togglePower (c : Ctrl) : Ctrl :=
  resetUI (sg.togglePower (play SwitchSound c)).

Definition toggleStrict (c : Ctrl) : Ctrl :=
  if getPowerState c then sg.toggleStrict c else c.

End ctrl.

(** Running a callback; [r] is what [Math.random()] returns if the
    callback comes to ask. *)
Definition call (func : Callback) (r : Q) (c : Ctrl) : Outcome :=
  match func with
  | CbLightOff i nextState =>
      let c := unlight i c in
      match nextState with
      | Some n => Done (sg.setState n c)
      | None => Done c
      end
  | CbLightSequence seq lightMS timeoutMS i =>
      lightSequence seq lightMS timeoutMS (i + 1) c
  | CbNextRound =>
      let c := incrementSpeed (sg.nextRound r c) in
      if sg.isState states.comDemo c then doComDemo c
      else if sg.isState states.win c then Done (win false c)
      else Done c
  | CbMistake =>
      if sg.getStrict c then ctrl.start r c
      else doComDemo (sg.setState states.comDemo c)
  | CbWinLight i => Done (light i false c)
  | CbWinOff => Done (unlightAll c)
  | CbWinAgain => Done (win true c)
  | CbStart => ctrl.start r c
  end.

(** The pending timer of promise [p] fires. *)
Definition fire (p : nat) (r : Q) (c : Ctrl) : Outcome :=
  match find (fun t => (promise t =? p)%nat) (pending c) with
  | Some t => call (callback t) r (cancel (Some p) c)
  | None => Done c
  end.

(** What happens to the controller: the user's clicks and the timers. *)
Inductive Event : Type :=
| EvTogglePower
| EvStart (r : Q)
| EvToggleStrict
| EvPressColor (i : Z)
| EvTimer (p : nat) (r : Q).

Definition handle (c : Ctrl) (e : Event) : Outcome :=
  match e with
  | EvTogglePower => Done (ctrl.togglePower c)
  | EvStart r => ctrl.start r c
  | EvToggleStrict => Done (ctrl.toggleStrict c)
  | EvPressColor i => ctrl.pressColor i c
  | EvTimer p r => fire p r c
  end.

(** An exception leaves the handler, not the page: the next event
    finds the controller as the handler left it. *)
Definition react (c : Ctrl) (e : Event) : Ctrl := final (handle c e).

Definition play_out (c : Ctrl) (es : list Event) : Ctrl :=
  fold_left react es c.

(** The controller after the events [es] on the loaded page. *)
Definition session (es : list Event) : Ctrl := play_out loaded es.

(** ** Properties of events and of controller states *)

(** The timers [clearTimeouts] does not reach: those whose promise is
    not on the stack [l]. *)
Definition off_stack (l : list nat) (t : Timer) : bool :=
  negb (existsb (Nat.eqb (promise t)) l).

(** Every pending timer has its promise on [timeoutStack]. *)
Definition tracked (c : Ctrl) : Prop :=
  forall t : Timer, In t (pending c) -> In (promise t) (timeoutStack c).

(** The pause between two lights of the demo in round [n]: the initial
    one, less [speedIncrement] for every round of [incrementRounds]
    reached. *)
Definition speedFor (n : Z) : Z :=
  CONFIG.startComTimeoutMS -
  CONFIG.speedIncrement *
  len (filter (fun r => r <=? n) CONFIG.incrementRounds).

(** The clicks come from the four buttons and [Math.random()] from
    [0, 1). *)
Definition event_in_range (e : Event) : Prop :=
  match e with
  | EvStart r | EvTimer _ r => (0 <= r)%Q /\ (r < 1)%Q
  | EvPressColor i => 0 <= i <= 3
  | _ => True
  end.

(** The callbacks that may be pending in a state: none when the power
    is off, only plain light-offs in [powerOn]. *)
Definition allowed (s : Z) (func : Callback) : Prop :=
  if s =? states.powerOff then False
  else if s =? states.powerOn then exists i, func = CbLightOff i None
  else True.

(** What a pending timer holds. *)
Definition timer_ok (c : Ctrl) (t : Timer) : Prop :=
  allowed (state (game c)) (callback t) /\
  (exists d : Z, delay t = Some d /\ 0 < d) /\
  match callback t with
  | CbLightOff i nextState =>
      0 <= i <= 3 /\
      (nextState = None \/ nextState = Some states.playerSequence)
  | CbLightSequence seq lightMS timeoutMS i =>
      seq = length (abandoned c) /\ 0 <= i /\
      lightMS = CONFIG.comPressMS /\ timeoutMS = delay t /\
      (exists d : Z, timeoutMS = Some d /\ CONFIG.comPressMS < d)
  | CbWinLight i => 0 <= i <= 3
  | _ => True
  end.

(** The invariant of the sessions. *)
Record wf (c : Ctrl) : Prop := mkWf {
  wf_tracked : tracked c;
  wf_buttons : length (lit c) = 4%nat;
  wf_state :
    state (game c) = states.powerOff \/ state (game c) = states.powerOn \/
    states.comDemo <= state (game c) <= states.win;
  wf_round : 0 <= round (game c) <= MAXROUND;
  wf_playing : states.comDemo <= state (game c) -> 1 <= round (game c);
  wf_off :
    state (game c) = states.powerOff ->
    strict (game c) = false /\ Forall (fun b => b = false) (lit c);
  wf_speed :
    state (game c) <> states.powerOff ->
    comTimeoutMS c = Some (speedFor (round (game c)));
  wf_timers : Forall (timer_ok c) (pending c);
  wf_fresh : Forall (fun t => (promise t < promises c)%nat) (pending c)
}.

(** The timers of a demo of [n] lights whose first promise is [p], in
    the order of their creation, which is the order in which they come
    due when the pause is longer than the light: each step but the last
    creates the light-off of its button, then the timer of the next
    step; the last creates the light-off that hands over to the
    player. *)
Fixpoint demoTimers (p n : nat) (r : Q) : list Event :=
  match n with
  | O => []
  | S m =>
      match m with
      | O => [EvTimer p r]
      | S _ => EvTimer p r :: EvTimer (S p) r :: demoTimers (S (S p)) m r
      end
  end.

(** The controller once [win] has lit button 1 and set the timers of
    its three other lights and of the dark: [win] up to its last
    [timeout]. *)
Definition winLights (c : Ctrl) : Ctrl :=
  timeout CbWinOff (Some 1000)
    (timeout (CbWinLight 0) (Some 450)
       (timeout (CbWinLight 3) (Some 225)
          (timeout (CbWinLight 2) (Some 100) (light 1 false c)))).

(** The promises of the pending timers are older than the next one. *)
Definition fresh (c : Ctrl) : Prop :=
  Forall (fun t => (promise t < promises c)%nat) (pending c).

(** Callbacks that only switch lights. *)
Definition inert (func : Callback) : Prop :=
  match func with
  | CbLightOff _ None | CbWinLight _ | CbWinOff => True
  | _ => False
  end.

(** ** Scenarios of the specification, run on the embedding *)

Example scenario_round_one :
  let g1 := togglePower init in
  let g2 := start (1 # 2) g1 in
  let g3 := setState states.playerSequence g2 in
  let g4 := snd (press 1 g3) in
  let g5 := nextRound (9 # 10) g4 in
  (state g1, round g1, sequence g1) = (states.powerOn, 0, []) /\
  (state g2, round g2, sequence g2) = (states.comDemo, 1, [1]) /\
  state g4 = states.allCorrect /\
  (state g5, round g5, sequence g5) = (states.comDemo, 2, [1; 3]).
Proof. vm_compute. repeat split. Qed.

Example scenario_mistake :
  let g0 := {| state := states.playerSequence; round := 2; pressN := 0;
               strict := false; sequence := [2; 0] |} in
  let g1 := snd (press 2 g0) in
  let g2 := snd (press 3 g1) in
  (pressN g1, state g1) = (1, states.playerSequence) /\
  (pressN g2, state g2) = (0, states.mistake).
Proof. vm_compute. split; reflexivity. Qed.

(** ** Basic facts about the primitives *)

Lemma setState_valid (n : Z) (g : Game) :
  0 <= n <= states.win -> setState n g = with_state n g.
Proof.
  intros [Hlo Hhi]. unfold setState.
  apply Z.leb_le in Hlo. apply Z.leb_le in Hhi.
  now rewrite Hlo, Hhi.
Qed.

Lemma setState_invalid (n : Z) (g : Game) :
  n < 0 \/ states.win < n -> setState n g = g.
Proof.
  intros H. unfold setState.
  destruct (Z.leb_spec 0 n); destruct (Z.leb_spec n states.win);
    simpl; trivial; lia.
Qed.

Lemma index_Some_bounds (l : list Z) (i x : Z) :
  index l i = Some x -> 0 <= i < len l.
Proof.
  unfold index, len. destruct (Z.ltb_spec i 0) as [Hneg | Hpos].
  - discriminate.
  - intros Hnth.
    assert (Hlt : (Z.to_nat i < length l)%nat)
      by (apply nth_error_Some; congruence).
    lia.
Qed.

Lemma neq_false_iff (b : Z) (v : option Z) : neq b v = false <-> v = Some b.
Proof.
  destruct v as [x |]; simpl.
  - rewrite negb_false_iff, Z.eqb_eq. split; congruence.
  - split; discriminate.
Qed.

Lemma neq_true_iff (b : Z) (v : option Z) : neq b v = true <-> v <> Some b.
Proof.
  rewrite <- neq_false_iff. destruct (neq b v); split; congruence.
Qed.

Lemma press_sequence (btnI : Z) (g : Game) :
  sequence (snd (press btnI g)) = sequence g.
Proof.
  unfold press.
  destruct (negb _); [reflexivity |].
  destruct (negb _); [reflexivity |].
  cbn [with_pressN sequence pressN].
  destruct (neq _ _); [reflexivity |].
  destruct (_ =? _); reflexivity.
Qed.

Lemma setState_sequence (n : Z) (g : Game) :
  sequence (setState n g) = sequence g.
Proof. unfold setState. destruct (_ && _); reflexivity. Qed.

Lemma togglePower_sequence (g : Game) :
  sequence (togglePower g) = sequence g \/ sequence (togglePower g) = [].
Proof.
  unfold togglePower. destruct (_ =? _); [right | left]; reflexivity.
Qed.

(** Apart from [nextRound] (and [start], which calls it), an operation
    keeps the sequence or empties it. *)
Lemma step_keeps_or_empties (g : Game) (o : Op) :
  match o with
  | ONextRound _ => True
  | OStart r => step g o = nextRound r (reset g)
  | _ => sequence (step g o) = sequence g \/ sequence (step g o) = []
  end.
Proof.
  destruct o as [r | r | btnI | | | n]; cbn [step]; trivial.
  - left. apply press_sequence.
  - apply togglePower_sequence.
  - left. reflexivity.
  - left. apply setState_sequence.
Qed.

(** ** [setState] *)

(** C8: [setState n] with [n] outside the state codes 0 ([powerOff])
    to 8 ([win]) leaves every variable, the state included, as it was;
    with [n] inside that range the state becomes [n] (and nothing else
    changes).  [setState] is a total function: it never fails. *)
Theorem setState_bounds_checked : forall (n : Z) (g : Game),
  (n < states.powerOff \/ states.win < n -> setState n g = g) /\
  (states.powerOff <= n <= states.win ->
     state (setState n g) = n /\
     round (setState n g) = round g /\
     pressN (setState n g) = pressN g /\
     strict (setState n g) = strict g /\
     sequence (setState n g) = sequence g).
Proof.
  intros n g. split.
  - apply setState_invalid.
  - intros Hin. rewrite setState_valid by exact Hin. repeat split.
Qed.

(** ** [press] *)

(** C3: [press] returns [true] exactly in the states [powerOn] and
    [playerSequence], and in every state other than [playerSequence]
    it changes none of the variables. *)
Theorem press_accepted_iff : forall (btnI : Z) (g : Game),
  (fst (press btnI g) = true <->
     state g = states.powerOn \/ state g = states.playerSequence) /\
  (state g <> states.playerSequence -> snd (press btnI g) = g).
Proof.
  intros btnI g. unfold press.
  destruct (Z.eqb_spec (state g) states.playerSequence) as [Hps | Hps];
    destruct (Z.eqb_spec (state g) states.powerOn) as [Hon | Hon];
    cbn [orb negb fst snd].
  - rewrite Hps in Hon. discriminate.
  - split; [| congruence].
    split; [now right |]. intros _.
    destruct (neq _ _); [reflexivity |].
    destruct (_ =? _); reflexivity.
  - split; [| reflexivity]. split; [now left | reflexivity].
  - split; [| reflexivity]. split; [discriminate | tauto].
Qed.

(** C1: in the state [playerSequence], [press btnI] counts the press
    and compares [btnI] with [sequence[n - 1]], [n] being the counter
    after the increment.  When they differ (also when there is no such
    element) the counter goes back to 0 and the state is [mistake];
    when they agree and [n] is the length of the sequence the state is
    [allCorrect]; when they agree and [n] is smaller the state stays
    [playerSequence]; agreement leaves no other case.  The result is
    [true] every time, and [round], [strict] and [sequence] are kept. *)
Theorem press_playerSequence : forall (btnI : Z) (g : Game),
  state g = states.playerSequence ->
  let n := pressN g + 1 in
  let expected := index (sequence g) (n - 1) in
  fst (press btnI g) = true /\
  (expected <> Some btnI ->
     snd (press btnI g) =
       {| state := states.mistake; round := round g; pressN := 0;
          strict := strict g; sequence := sequence g |}) /\
  (expected = Some btnI -> n = len (sequence g) ->
     snd (press btnI g) =
       {| state := states.allCorrect; round := round g; pressN := n;
          strict := strict g; sequence := sequence g |}) /\
  (expected = Some btnI -> n < len (sequence g) ->
     snd (press btnI g) =
       {| state := states.playerSequence; round := round g; pressN := n;
          strict := strict g; sequence := sequence g |}) /\
  (expected = Some btnI -> n <= len (sequence g)).
Proof.
  intros btnI g Hps n expected.
  assert (Hbound : expected = Some btnI -> n <= len (sequence g)).
  { intros Hexp. apply index_Some_bounds in Hexp. lia. }
  unfold press. rewrite Hps. cbn [Z.eqb states.playerSequence states.powerOn
    Pos.eqb orb negb with_pressN pressN sequence].
  fold n. fold expected.
  destruct (neq btnI expected) eqn:Hneq.
  - apply neq_true_iff in Hneq. cbn [fst snd].
    split; [reflexivity |]. repeat split; try contradiction; trivial.
  - apply neq_false_iff in Hneq.
    destruct (Z.eqb_spec n (len (sequence g))) as [Hlast | Hmore];
      cbn [fst snd]; (split; [reflexivity |]).
    + repeat split; try congruence; try lia; trivial.
    + destruct g as [s rd pn st sq]; cbn in *; subst s.
      repeat split; try congruence; try lia; trivial.
Qed.

(** The first press of the mistake scenario: sequence [2; 0], counter 0,
    button 2. *)
Lemma press_playerSequence_witness :
  let g := {| state := states.playerSequence; round := 2; pressN := 0;
              strict := false; sequence := [2; 0] |} in
  press 2 g =
    (true, {| state := states.playerSequence; round := 2; pressN := 1;
              strict := false; sequence := [2; 0] |}).
Proof.
  intro g.
  destruct (press_playerSequence 2 g eq_refl) as (Hret & _ & _ & Hmore & _).
  rewrite (surjective_pairing (press 2 g)), Hret.
  rewrite (Hmore eq_refl eq_refl). reflexivity.
Defined.

(** ** [togglePower] *)

(** C6: from [powerOff], [togglePower] goes to [powerOn], empties the
    sequence and zeroes [round] and [pressN], keeping [strict]; from
    any other state it goes to [powerOff] and clears [strict], keeping
    [round], [sequence] and [pressN]. *)
Theorem togglePower_spec : forall g : Game,
  (state g = states.powerOff ->
     togglePower g =
       {| state := states.powerOn; round := 0; pressN := 0;
          strict := strict g; sequence := [] |}) /\
  (state g <> states.powerOff ->
     togglePower g =
       {| state := states.powerOff; round := round g; pressN := pressN g;
          strict := false; sequence := sequence g |}).
Proof.
  intros g. unfold togglePower.
  destruct (Z.eqb_spec (state g) states.powerOff) as [Hoff | Hon].
  - split; [reflexivity | contradiction].
  - split; [contradiction | reflexivity].
Qed.

(** ** [nextRound] and [start] *)

Lemma randomSignal_range (r : Q) :
  (0 <= r)%Q -> (r < 1)%Q -> 0 <= randomSignal r <= 3.
Proof.
  intros Hlo Hhi. unfold randomSignal.
  assert (H0 : Qfloor 0 <= Qfloor (r * (399 # 100))).
  { apply Qfloor_resp_le. apply Qmult_le_0_compat; [exact Hlo | discriminate]. }
  assert (H3 : Qfloor (r * (399 # 100)) <= Qfloor (399 # 100)).
  { apply Qfloor_resp_le.
    setoid_replace (399 # 100)%Q with (1 * (399 # 100))%Q at 2 by ring.
    apply Qmult_le_compat_r; [apply Qlt_le_weak; exact Hhi | discriminate]. }
  change (Qfloor 0) with 0 in H0. change (Qfloor (399 # 100)) with 3 in H3.
  lia.
Qed.

Lemma nextRound_full (r : Q) (g : Game) :
  MAXROUND < round g + 1 ->
  nextRound r g =
    {| state := states.win; round := round g; pressN := 0;
       strict := strict g; sequence := sequence g |}.
Proof.
  intros Hfull. unfold nextRound. cbn [with_pressN round].
  destruct (Z.gtb_spec (round g + 1) MAXROUND) as [_ | Hle]; [| lia].
  reflexivity.
Qed.

Lemma nextRound_more (r : Q) (g : Game) :
  round g + 1 <= MAXROUND ->
  nextRound r g =
    {| state := states.comDemo; round := round g + 1; pressN := 0;
       strict := strict g; sequence := sequence g ++ [randomSignal r] |}.
Proof.
  intros Hmore. unfold nextRound. cbn [with_pressN round].
  destruct (Z.gtb_spec (round g + 1) MAXROUND) as [Hgt | _]; [lia |].
  reflexivity.
Qed.

(** C2: [nextRound], in whatever state, zeroes [pressN]; when
    [round + 1] exceeds [MAXROUND] = 20 the state becomes [win] and
    [round] and [sequence] are kept; otherwise [round] grows by 1, one
    value is appended to [sequence] (a signal among 0..3 for a random
    source in [0, 1)), and the state becomes [comDemo].  [strict] is
    kept.  No other operation appends: [press], [togglePower],
    [toggleStrict] and [setState] leave [sequence] as it was or empty,
    and [start] is [nextRound] after [reset]. *)
Theorem nextRound_spec : forall (r : Q) (g : Game),
  MAXROUND = 20 /\
  pressN (nextRound r g) = 0 /\
  strict (nextRound r g) = strict g /\
  (round g + 1 > MAXROUND ->
     state (nextRound r g) = states.win /\
     round (nextRound r g) = round g /\
     sequence (nextRound r g) = sequence g) /\
  (round g + 1 <= MAXROUND ->
     state (nextRound r g) = states.comDemo /\
     round (nextRound r g) = round g + 1 /\
     sequence (nextRound r g) = sequence g ++ [randomSignal r]) /\
  ((0 <= r)%Q -> (r < 1)%Q -> In (randomSignal r) [0; 1; 2; 3]) /\
  (forall o : Op,
     match o with
     | ONextRound _ => True
     | OStart r' => step g o = nextRound r' (reset g)
     | _ => sequence (step g o) = sequence g \/ sequence (step g o) = []
     end).
Proof.
  intros r g. split; [reflexivity |].
  assert (Hsignal :
    (0 <= r)%Q -> (r < 1)%Q -> In (randomSignal r) [0; 1; 2; 3]).
  { intros Hlo Hhi. pose proof (randomSignal_range r Hlo Hhi) as Hrange.
    cbn [In]. lia. }
  destruct (Z.le_gt_cases (round g + 1) MAXROUND) as [Hmore | Hfull].
  - rewrite (nextRound_more r g Hmore).
    cbn [pressN strict state round sequence].
    repeat split; try lia; try exact Hsignal.
    apply step_keeps_or_empties.
  - rewrite (nextRound_full r g Hfull).
    cbn [pressN strict state round sequence].
    repeat split; try lia; try exact Hsignal.
    apply step_keeps_or_empties.
Qed.

(** C10: [start] applies no guard on the state.  From any values of the
    variables it ends in [comDemo], never in [win], with [round] 1, a
    sequence of exactly one element and [pressN] 0. *)
Theorem start_any_state : forall (r : Q) (g : Game),
  start r g =
    {| state := states.comDemo; round := 1; pressN := 0;
       strict := strict g; sequence := [randomSignal r] |} /\
  state (start r g) <> states.win /\
  len (sequence (start r g)) = 1.
Proof.
  intros r g. unfold start.
  rewrite nextRound_more by (cbn; unfold MAXROUND; lia).
  cbn. repeat split. discriminate.
Qed.

(** ** Invariants of the runs *)

Lemma run_snoc (g : Game) (ops : list Op) (o : Op) :
  run g (ops ++ [o]) = step (run g ops) o.
Proof. unfold run. now rewrite fold_left_app. Qed.

Lemma run_app (g : Game) (ops ops' : list Op) :
  run g (ops ++ ops') = run (run g ops) ops'.
Proof. unfold run. apply fold_left_app. Qed.

(** An invariant of [step] that holds initially holds after any run. *)
Lemma run_invariant (P : Game -> Prop) :
  (forall g o, P g -> P (step g o)) ->
  forall g ops, P g -> P (run g ops).
Proof.
  intros Hstep g ops. revert g.
  induction ops as [| o ops IH]; intros g Hg; cbn.
  - exact Hg.
  - apply IH, Hstep, Hg.
Qed.

Lemma len_app_one (l : list Z) (x : Z) : len (l ++ [x]) = len l + 1.
Proof. unfold len. rewrite length_app. cbn. lia. Qed.

Lemma nextRound_length_is_round (r : Q) (g : Game) :
  length_is_round g -> length_is_round (nextRound r g).
Proof.
  unfold length_is_round. intros Hg.
  destruct (Z.le_gt_cases (round g + 1) MAXROUND) as [Hmore | Hfull].
  - rewrite nextRound_more by exact Hmore. cbn. rewrite len_app_one. lia.
  - rewrite nextRound_full by exact Hfull. exact Hg.
Qed.

Lemma press_round (btnI : Z) (g : Game) :
  round (snd (press btnI g)) = round g.
Proof.
  unfold press.
  destruct (negb _); [reflexivity |].
  destruct (negb _); [reflexivity |].
  cbn [with_pressN sequence pressN].
  destruct (neq _ _); [reflexivity |].
  destruct (_ =? _); reflexivity.
Qed.

Lemma setState_round (n : Z) (g : Game) : round (setState n g) = round g.
Proof. unfold setState. destruct (_ && _); reflexivity. Qed.

Lemma setState_pressN (n : Z) (g : Game) : pressN (setState n g) = pressN g.
Proof. unfold setState. destruct (_ && _); reflexivity. Qed.

Lemma step_length_is_round (g : Game) (o : Op) :
  length_is_round g -> length_is_round (step g o).
Proof.
  intros Hg. destruct o as [r | r | btnI | | | n]; cbn [step].
  - apply nextRound_length_is_round. reflexivity.
  - apply nextRound_length_is_round, Hg.
  - unfold length_is_round. now rewrite press_sequence, press_round.
  - unfold togglePower. destruct (_ =? _); [reflexivity |].
    unfold length_is_round in *. cbn [with_strict round sequence].
    now rewrite setState_sequence, setState_round.
  - exact Hg.
  - unfold length_is_round. now rewrite setState_sequence, setState_round.
Qed.

(** C4: whatever calls of [start], [nextRound], [press], [togglePower],
    [toggleStrict] and [setState] are made from the initial state,
    [sequence.length == round] holds right after each [nextRound], and
    still holds after any further calls, mutating or not: it holds
    after every run. *)
Theorem length_is_round_always :
  (forall (pre : list Op) (r : Q),
     length_is_round (after (pre ++ [ONextRound r]))) /\
  (forall (pre : list Op) (r : Q) (post : list Op),
     length_is_round (after (pre ++ ONextRound r :: post))) /\
  (forall ops : list Op, length_is_round (after ops)).
Proof.
  assert (Hall : forall ops : list Op, length_is_round (after ops)).
  { intros ops. unfold after. apply run_invariant.
    - apply step_length_is_round.
    - reflexivity. }
  repeat split; intros; apply Hall.
Qed.

Lemma press_pressN_in_bounds (btnI : Z) (g : Game) :
  pressN_in_bounds g -> pressN_in_bounds (snd (press btnI g)).
Proof.
  unfold pressN_in_bounds. intros Hg. unfold press.
  destruct (negb _); [exact Hg |].
  destruct (negb _); [exact Hg |].
  cbn [with_pressN sequence pressN].
  destruct (neq _ _) eqn:Hneq.
  - cbn [snd]. rewrite setState_pressN, setState_sequence. cbn.
    unfold len. lia.
  - apply neq_false_iff, index_Some_bounds in Hneq.
    destruct (_ =? _); cbn [snd];
      rewrite ?setState_pressN, ?setState_sequence; cbn; lia.
Qed.

Lemma nextRound_pressN_in_bounds (r : Q) (g : Game) :
  pressN_in_bounds (nextRound r g).
Proof.
  unfold pressN_in_bounds.
  destruct (Z.le_gt_cases (round g + 1) MAXROUND) as [Hmore | Hfull].
  - rewrite nextRound_more by exact Hmore. cbn. unfold len. lia.
  - rewrite nextRound_full by exact Hfull. cbn. unfold len. lia.
Qed.

Lemma step_pressN_in_bounds (g : Game) (o : Op) :
  pressN_in_bounds g -> pressN_in_bounds (step g o).
Proof.
  intros Hg. destruct o as [r | r | btnI | | | n]; cbn [step].
  - apply nextRound_pressN_in_bounds.
  - apply nextRound_pressN_in_bounds.
  - apply press_pressN_in_bounds, Hg.
  - unfold togglePower. destruct (_ =? _).
    + unfold pressN_in_bounds. cbn. lia.
    + unfold pressN_in_bounds in *. cbn [with_strict pressN sequence].
      now rewrite setState_sequence, setState_pressN.
  - exact Hg.
  - unfold pressN_in_bounds in *.
    now rewrite setState_sequence, setState_pressN.
Qed.

(** C7: after every operation of every run from the initial state,
    [0 <= pressN <= sequence.length]. *)
Theorem pressN_in_bounds_always : forall ops : list Op,
  pressN_in_bounds (after ops).
Proof.
  intros ops. unfold after. apply run_invariant.
  - apply step_pressN_in_bounds.
  - unfold pressN_in_bounds. cbn. lia.
Qed.

(** ** Playing up to the last round *)

Lemma nextRound_round (r : Q) (g : Game) :
  round g <= MAXROUND ->
  round (nextRound r g) = Z.min MAXROUND (round g + 1).
Proof.
  intros Hg.
  destruct (Z.le_gt_cases (round g + 1) MAXROUND) as [Hmore | Hfull].
  - rewrite nextRound_more by exact Hmore. cbn. lia.
  - rewrite nextRound_full by exact Hfull. cbn. lia.
Qed.

Lemma step_round_bounded (g : Game) (o : Op) :
  0 <= round g <= MAXROUND -> 0 <= round (step g o) <= MAXROUND.
Proof.
  intros Hg. destruct o as [r | r | btnI | | | n]; cbn [step].
  - unfold start. rewrite nextRound_round; cbn; unfold MAXROUND; lia.
  - rewrite nextRound_round; lia.
  - now rewrite press_round.
  - unfold togglePower. destruct (_ =? _).
    + cbn. unfold MAXROUND. lia.
    + cbn [with_strict round]. now rewrite setState_round.
  - exact Hg.
  - now rewrite setState_round.
Qed.

(** The invariant [0 <= round <= MAXROUND] of the data model. *)
Lemma round_bounded_always (ops : list Op) :
  0 <= round (after ops) <= MAXROUND.
Proof.
  unfold after. apply run_invariant.
  - apply step_round_bounded.
  - cbn. unfold MAXROUND. lia.
Qed.

(** [n] calls of [nextRound] add [n] to [round], up to [MAXROUND]. *)
Lemma nextRounds_round (rs : list Q) : forall g : Game,
  round g <= MAXROUND ->
  round (run g (map ONextRound rs)) =
    Z.min MAXROUND (round g + Z.of_nat (length rs)).
Proof.
  induction rs as [| r rs IH]; intros g Hg.
  - cbn. lia.
  - change (run g (map ONextRound (r :: rs)))
      with (run (nextRound r g) (map ONextRound rs)).
    pose proof (nextRound_round r g Hg) as Hr.
    rewrite IH by lia. rewrite Hr. cbn [length]. lia.
Qed.

(** C5: from the initial state ([powerOff]), [start] followed by 20
    calls of [nextRound] ends in [win] with [round] 20, and after no
    prefix of these calls does [round] exceed [MAXROUND] = 20. *)
Theorem start_then_twenty_rounds : forall (r0 : Q) (rs : list Q),
  length rs = 20%nat ->
  let ops := OStart r0 :: map ONextRound rs in
  state init = states.powerOff /\
  state (after ops) = states.win /\
  round (after ops) = 20 /\
  (forall k : nat, round (after (firstn k ops)) <= MAXROUND) /\
  MAXROUND = 20.
Proof.
  intros r0 rs Hlen ops.
  assert (Hne : rs <> []) by (intros ->; discriminate).
  destruct (exists_last Hne) as (rs' & r & ->).
  rewrite length_app in Hlen. cbn [length] in Hlen.
  assert (Hprev : round (run (start r0 init) (map ONextRound rs')) = 20).
  { assert (Hstart : round (start r0 init) = 1).
    { unfold start.
      rewrite nextRound_more by (cbn; unfold MAXROUND; lia). reflexivity. }
    rewrite nextRounds_round by (rewrite Hstart; unfold MAXROUND; lia).
    rewrite Hstart. unfold MAXROUND. lia. }
  assert (Hfinal : after ops =
            nextRound r (run (start r0 init) (map ONextRound rs'))).
  { unfold ops, after. rewrite map_app.
    change (run init (OStart r0 :: map ONextRound rs' ++ map ONextRound [r]))
      with (run (start r0 init) (map ONextRound rs' ++ [ONextRound r])).
    apply run_snoc. }
  split; [reflexivity |].
  rewrite Hfinal.
  rewrite nextRound_full by (rewrite Hprev; unfold MAXROUND; lia).
  cbn [state round]. repeat split; trivial.
  intros k. apply round_bounded_always.
Qed.

(** Twenty-one calls with the random source stuck at 1/2. *)
Lemma start_then_twenty_rounds_witness :
  let ops := OStart (1 # 2) :: map ONextRound (repeat (1 # 2) 20) in
  state (after ops) = states.win /\ round (after ops) = 20.
Proof.
  intro ops.
  destruct (start_then_twenty_rounds (1 # 2) (repeat (1 # 2) 20) eq_refl)
    as (_ & Hstate & Hround & _).
  split; assumption.
Defined.

(** ** The distribution of the appended signal *)

Lemma Qfloor_eq_iff (x : Q) (k : Z) :
  Qfloor x = k <-> (inject_Z k <= x)%Q /\ (x < inject_Z (k + 1))%Q.
Proof.
  split.
  - intros <-. split; [apply Qfloor_le | apply Qlt_floor].
  - intros [Hlo Hhi].
    assert (H1 : k <= Qfloor x).
    { rewrite <- (Qfloor_Z k). apply Qfloor_resp_le, Hlo. }
    assert (H2 : Qfloor x < k + 1).
    { rewrite Zlt_Qlt. eapply Qle_lt_trans; [apply Qfloor_le | exact Hhi]. }
    lia.
Qed.

Lemma randomSignal_eq_iff (r : Q) (k : Z) :
  randomSignal r = k <->
  (inject_Z k * (100 # 399) <= r)%Q /\ (r < inject_Z (k + 1) * (100 # 399))%Q.
Proof.
  unfold randomSignal. rewrite Qfloor_eq_iff.
  split; intros [Hlo Hhi]; split; lra.
Qed.

Lemma preimage_0 : preimage 0 0 (100 # 399).
Proof.
  intros r Hlo Hhi. rewrite randomSignal_eq_iff.
  change (inject_Z (0 + 1)) with (1 # 1)%Q. change (inject_Z 0) with (0 # 1)%Q.
  split; intros [H1 H2]; split; lra.
Qed.

Lemma preimage_1 : preimage 1 (100 # 399) (200 # 399).
Proof.
  intros r Hlo Hhi. rewrite randomSignal_eq_iff.
  change (inject_Z (1 + 1)) with (2 # 1)%Q. change (inject_Z 1) with (1 # 1)%Q.
  split; intros [H1 H2]; split; lra.
Qed.

Lemma preimage_2 : preimage 2 (200 # 399) (300 # 399).
Proof.
  intros r Hlo Hhi. rewrite randomSignal_eq_iff.
  change (inject_Z (2 + 1)) with (3 # 1)%Q. change (inject_Z 2) with (2 # 1)%Q.
  split; intros [H1 H2]; split; lra.
Qed.

Lemma preimage_3 : preimage 3 (300 # 399) 1.
Proof.
  intros r Hlo Hhi. rewrite randomSignal_eq_iff.
  change (inject_Z (3 + 1)) with (4 # 1)%Q. change (inject_Z 3) with (3 # 1)%Q.
  split; intros [H1 H2]; split; lra.
Qed.

(** Within [0, 1], the interval that describes a preimage is unique. *)
Lemma preimage_unique (k : Z) (lo hi lo' hi' : Q) :
  preimage k lo hi -> preimage k lo' hi' ->
  (0 <= lo)%Q -> (lo < hi)%Q -> (hi <= 1)%Q ->
  (0 <= lo')%Q -> (lo' < hi')%Q -> (hi' <= 1)%Q ->
  (lo == lo')%Q /\ (hi == hi')%Q.
Proof.
  intros P P' H0 Hlt H1 H0' Hlt' H1'.
  assert (Hsame : forall r : Q, (0 <= r)%Q -> (r < 1)%Q ->
            ((lo <= r)%Q /\ (r < hi)%Q <-> (lo' <= r)%Q /\ (r < hi')%Q)).
  { intros r Hr0 Hr1. rewrite <- (P r Hr0 Hr1). apply P'; assumption. }
  assert (Hlo : (lo == lo')%Q).
  { apply Qle_antisym.
    - apply Qnot_lt_le. intros Hc.
      destruct (proj2 (Hsame lo' ltac:(lra) ltac:(lra))) as [Ha _]; lra.
    - apply Qnot_lt_le. intros Hc.
      destruct (proj1 (Hsame lo ltac:(lra) ltac:(lra))) as [Ha _]; lra. }
  split; [exact Hlo |].
  apply Qle_antisym.
  - apply Qnot_lt_le. intros Hc.
    destruct (proj1 (Hsame hi' ltac:(lra) ltac:(lra))) as [_ Ha]; lra.
  - apply Qnot_lt_le. intros Hc.
    destruct (proj2 (Hsame hi ltac:(lra) ltac:(lra))) as [_ Ha]; lra.
Qed.

(** C9, as the code has it: with [Math.random()] a value [r] of [0, 1),
    the appended signal [Math.floor(r * 3.99)] is 0, 1 or 2 on an
    interval of length 100/399 each and 3 on [300/399, 1), of length
    99/399 only.  So the four preimages are not of equal measure; at
    [r = 3/4], where a fourth of the mass lies below and a fourth
    above, the code answers 2. *)
Theorem randomSignal_not_uniform :
  randomSignal (3 # 4) = 2 /\
  preimage 0 0 (100 # 399) /\
  preimage 1 (100 # 399) (200 # 399) /\
  preimage 2 (200 # 399) (300 # 399) /\
  preimage 3 (300 # 399) 1 /\
  ((100 # 399) - 0 == 100 # 399)%Q /\
  (1 - (300 # 399) == 99 # 399)%Q /\
  ~ (exists w : Q, forall k : Z, 0 <= k <= 3 ->
       exists lo hi : Q,
         (0 <= lo)%Q /\ (lo < hi)%Q /\ (hi <= 1)%Q /\
         preimage k lo hi /\ (hi - lo == w)%Q).
Proof.
  split; [reflexivity |].
  split; [exact preimage_0 |].
  split; [exact preimage_1 |].
  split; [exact preimage_2 |].
  split; [exact preimage_3 |].
  split; [reflexivity |].
  split; [reflexivity |].
  intros [w Hw].
  destruct (Hw 0 ltac:(lia)) as (lo0 & hi0 & A0 & B0 & C0 & P0 & W0).
  destruct (Hw 3 ltac:(lia)) as (lo3 & hi3 & A3 & B3 & C3 & P3 & W3).
  destruct (preimage_unique 0 lo0 hi0 0 (100 # 399) P0 preimage_0)
    as [E0 F0]; try lra.
  destruct (preimage_unique 3 lo3 hi3 (300 # 399) 1 P3 preimage_3)
    as [E3 F3]; try lra.
Qed.

(** * Further properties of the engine *)

(** ** The state code and the length of the sequence *)






(** X2: [round] stays within 0 .. [MAXROUND] and the sequence never
    grows beyond [MAXROUND] elements, in every run. *)
Theorem round_and_length_capped : forall ops : list Op,
  0 <= round (after ops) <= MAXROUND /\
  len (sequence (after ops)) <= MAXROUND.
Proof.
  intros ops.
  pose proof (round_bounded_always ops) as Hround.
  assert (Hlen : length_is_round (after ops)).
  { unfold after. apply run_invariant.
    - apply step_length_is_round.
    - reflexivity. }
  unfold length_is_round in Hlen. split; [exact Hround | lia].
Qed.

(** ** The signals of the sequence *)

Lemma nextRound_signals (r : Q) (g : Game) :
  (0 <= r)%Q -> (r < 1)%Q ->
  signals (sequence g) -> signals (sequence (nextRound r g)).
Proof.
  intros Hlo Hhi Hg.
  destruct (Z.le_gt_cases (round g + 1) MAXROUND) as [Hmore | Hfull].
  - rewrite nextRound_more by exact Hmore. cbn [sequence].
    apply Forall_app. split; [exact Hg |].
    constructor; [apply randomSignal_range; assumption | constructor].
  - rewrite nextRound_full by exact Hfull. exact Hg.
Qed.

Lemma step_signals (g : Game) (o : Op) :
  random_in_unit o -> signals (sequence g) -> signals (sequence (step g o)).
Proof.
  intros Ho Hg. destruct o as [r | r | btnI | | | n]; cbn [step].
  - destruct Ho as [Hlo Hhi]. apply nextRound_signals; trivial. constructor.
  - destruct Ho as [Hlo Hhi]. apply nextRound_signals; trivial.
  - now rewrite press_sequence.
  - destruct (togglePower_sequence g) as [-> | ->]; [exact Hg | constructor].
  - exact Hg.
  - now rewrite setState_sequence.
Qed.

(** X3: as long as [Math.random()] returns values of [0, 1), every
    element of the sequence is a button index 0, 1, 2 or 3. *)
Theorem sequence_holds_button_indices : forall ops : list Op,
  Forall random_in_unit ops ->
  Forall (fun x => 0 <= x <= 3) (sequence (after ops)).
Proof.
  intros ops Hops. unfold after.
  assert (Hgen : forall g, signals (sequence g) ->
            signals (sequence (run g ops))).
  { induction Hops as [| o ops Ho _ IH]; intros g Hg; cbn.
    - exact Hg.
    - apply IH, step_signals; assumption. }
  apply Hgen. constructor.
Qed.

Lemma sequence_holds_button_indices_witness :
  Forall (fun x => 0 <= x <= 3)
    (sequence (after [OTogglePower; OStart (1 # 2); ONextRound (3 # 4)])).
Proof.
  apply sequence_holds_button_indices.
  repeat constructor; discriminate.
Defined.

(** ** What [press] leaves alone, and presses beyond the sequence *)

Lemma press_strict (btnI : Z) (g : Game) :
  strict (snd (press btnI g)) = strict g.
Proof.
  unfold press.
  destruct (negb _); [reflexivity |].
  destruct (negb _); [reflexivity |].
  cbn [with_pressN sequence pressN].
  destruct (neq _ _); [reflexivity |].
  destruct (_ =? _); reflexivity.
Qed.

Lemma press_pressN_cases (btnI : Z) (g : Game) :
  pressN (snd (press btnI g)) = pressN g \/
  pressN (snd (press btnI g)) = pressN g + 1 \/
  pressN (snd (press btnI g)) = 0.
Proof.
  unfold press.
  destruct (negb _); [now left |].
  destruct (negb _); [now left |].
  cbn [with_pressN sequence pressN].
  destruct (neq _ _); [right; right; reflexivity |].
  destruct (_ =? _); right; left; reflexivity.
Qed.

(** X4: in no state does [press] touch [round], [sequence] or
    [strict]; the press counter stays, grows by one or returns to 0. *)
Theorem press_changes_only_counter_and_state : forall (btnI : Z) (g : Game),
  round (snd (press btnI g)) = round g /\
  sequence (snd (press btnI g)) = sequence g /\
  strict (snd (press btnI g)) = strict g /\
  (pressN (snd (press btnI g)) = pressN g \/
   pressN (snd (press btnI g)) = pressN g + 1 \/
   pressN (snd (press btnI g)) = 0).
Proof.
  intros btnI g.
  split; [apply press_round |].
  split; [apply press_sequence |].
  split; [apply press_strict | apply press_pressN_cases].
Qed.

Lemma index_out_of_bounds (l : list Z) (i : Z) :
  i < 0 \/ len l <= i -> index l i = None.
Proof.
  intros Hi. unfold index.
  destruct (Z.ltb_spec i 0) as [Hneg | Hpos]; [reflexivity |].
  apply nth_error_None. unfold len in Hi. lia.
Qed.

(** X5: in [playerSequence], a press made when the counter already
    covers the whole sequence (in particular when the sequence is
    empty) finds [undefined] in the array: whatever the button, it is
    accepted and counted as a mistake. *)
Theorem press_beyond_sequence_is_mistake : forall (btnI : Z) (g : Game),
  state g = states.playerSequence ->
  len (sequence g) <= pressN g ->
  press btnI g =
    (true, {| state := states.mistake; round := round g; pressN := 0;
              strict := strict g; sequence := sequence g |}).
Proof.
  intros btnI g Hps Hbeyond. unfold press. rewrite Hps.
  cbn [Z.eqb states.playerSequence states.powerOn Pos.eqb orb negb
       with_pressN pressN sequence].
  rewrite index_out_of_bounds by lia. reflexivity.
Qed.

(** A press right after power on and [setState(playerSequence)], with
    nothing to repeat yet. *)
Lemma press_beyond_sequence_is_mistake_witness :
  press 2 (setState states.playerSequence (togglePower init)) =
    (true, {| state := states.mistake; round := 0; pressN := 0;
              strict := false; sequence := [] |}).
Proof.
  apply (press_beyond_sequence_is_mistake 2
           (setState states.playerSequence (togglePower init)));
    [reflexivity | vm_compute; discriminate].
Defined.

(** ** Repeating the whole sequence *)

Lemma press_match_more (x : Z) (g : Game) :
  state g = states.playerSequence ->
  index (sequence g) (pressN g) = Some x ->
  pressN g + 1 <> len (sequence g) ->
  press x g = (true, with_pressN (pressN g + 1) g).
Proof.
  intros Hps Hx Hmore. unfold press. rewrite Hps.
  cbn [Z.eqb states.playerSequence states.powerOn Pos.eqb orb negb
       with_pressN pressN sequence].
  replace (pressN g + 1 - 1) with (pressN g) by lia.
  rewrite Hx. cbn [neq]. rewrite Z.eqb_refl. cbn [negb].
  destruct (Z.eqb_spec (pressN g + 1) (len (sequence g))); [contradiction |].
  reflexivity.
Qed.

Lemma press_match_last (x : Z) (g : Game) :
  state g = states.playerSequence ->
  index (sequence g) (pressN g) = Some x ->
  pressN g + 1 = len (sequence g) ->
  press x g =
    (true, with_state states.allCorrect (with_pressN (pressN g + 1) g)).
Proof.
  intros Hps Hx Hlast. unfold press. rewrite Hps.
  cbn [Z.eqb states.playerSequence states.powerOn Pos.eqb orb negb
       with_pressN pressN sequence].
  replace (pressN g + 1 - 1) with (pressN g) by lia.
  rewrite Hx. cbn [neq]. rewrite Z.eqb_refl. cbn [negb].
  destruct (Z.eqb_spec (pressN g + 1) (len (sequence g))); [| contradiction].
  reflexivity.
Qed.

Lemma firstn_snoc (l : list Z) : forall (k : nat) (x : Z),
  nth_error l k = Some x -> firstn (S k) l = firstn k l ++ [x].
Proof.
  induction l as [| y l IH]; intros [| k] x Hx; try discriminate.
  - cbn in Hx. injection Hx as ->. reflexivity.
  - cbn in Hx. cbn [firstn app]. f_equal. apply IH, Hx.
Qed.

Lemma index_of_nat (l : list Z) (k : nat) :
  index l (Z.of_nat k) = nth_error l k.
Proof.
  unfold index. destruct (Z.ltb_spec (Z.of_nat k) 0); [lia |].
  now rewrite Nat2Z.id.
Qed.

(** The first [k] elements pressed in order, [k] short of the whole. *)
Lemma presses_prefix (g : Game) :
  state g = states.playerSequence -> pressN g = 0 ->
  forall k : nat, (k < length (sequence g))%nat ->
    run g (map OPress (firstn k (sequence g))) = with_pressN (Z.of_nat k) g.
Proof.
  intros Hps H0. induction k as [| k IH]; intros Hk.
  - cbn. destruct g; cbn in *; subst; reflexivity.
  - destruct (nth_error (sequence g) k) as [x |] eqn:Hx;
      [| apply nth_error_None in Hx; lia].
    rewrite (firstn_snoc _ _ _ Hx), map_app. cbn [map].
    rewrite run_snoc, IH by lia. cbn [step].
    rewrite press_match_more; cbn [with_pressN state pressN sequence snd].
    + unfold with_pressN. cbn. f_equal. lia.
    + exact Hps.
    + rewrite index_of_nat. exact Hx.
    + unfold len. lia.
Qed.

(** X6: in [playerSequence] with the counter at 0, pressing the buttons
    of a non-empty sequence in order keeps the state while presses
    remain, and ends in [allCorrect] with the counter at the length;
    nothing else changes. *)
Theorem pressing_the_sequence_is_all_correct : forall g : Game,
  state g = states.playerSequence ->
  pressN g = 0 ->
  sequence g <> [] ->
  (forall k : nat, (k < length (sequence g))%nat ->
     run g (map OPress (firstn k (sequence g))) =
       {| state := states.playerSequence; round := round g;
          pressN := Z.of_nat k; strict := strict g;
          sequence := sequence g |}) /\
  run g (map OPress (sequence g)) =
    {| state := states.allCorrect; round := round g;
       pressN := len (sequence g); strict := strict g;
       sequence := sequence g |}.
Proof.
  intros g Hps H0 Hne. split.
  - intros k Hk. rewrite presses_prefix by assumption.
    unfold with_pressN. now rewrite Hps.
  - destruct (length (sequence g)) as [| n] eqn:Hlen.
    + apply length_zero_iff_nil in Hlen. contradiction.
    + destruct (nth_error (sequence g) n) as [x |] eqn:Hx;
        [| apply nth_error_None in Hx; lia].
      rewrite <- (firstn_all (sequence g)) at 1. rewrite Hlen.
      rewrite (firstn_snoc _ _ _ Hx), map_app. cbn [map].
      rewrite run_snoc, presses_prefix by (assumption || lia). cbn [step].
      rewrite press_match_last; cbn [with_pressN state pressN sequence snd].
      * unfold with_state, with_pressN, len. cbn. rewrite Hlen. f_equal. lia.
      * exact Hps.
      * rewrite index_of_nat. exact Hx.
      * unfold len. lia.
Qed.

Lemma pressing_the_sequence_is_all_correct_witness :
  run {| state := states.playerSequence; round := 3; pressN := 0;
         strict := true; sequence := [2; 0; 3] |}
      (map OPress [2; 0; 3]) =
    {| state := states.allCorrect; round := 3; pressN := 3;
       strict := true; sequence := [2; 0; 3] |}.
Proof.
  apply (pressing_the_sequence_is_all_correct
           {| state := states.playerSequence; round := 3; pressN := 0;
              strict := true; sequence := [2; 0; 3] |});
    [reflexivity | reflexivity | discriminate].
Defined.

(** ** The sequence between two resets *)

Lemma step_appends (g : Game) (o : Op) :
  no_reset o ->
  exists added : list Z,
    sequence (step g o) = sequence g ++ added /\
    round (step g o) = round g + len added.
Proof.
  intros Ho. destruct o as [r | r | btnI | | | n]; cbn [step];
    try contradiction.
  - destruct (Z.le_gt_cases (round g + 1) MAXROUND) as [Hmore | Hfull].
    + exists [randomSignal r]. rewrite nextRound_more by exact Hmore.
      split; reflexivity.
    + exists []. rewrite nextRound_full by exact Hfull. cbn.
      rewrite app_nil_r. split; [reflexivity | lia].
  - exists []. rewrite press_sequence, press_round, app_nil_r.
    split; [reflexivity | cbn; lia].
  - exists []. cbn. rewrite app_nil_r. split; [reflexivity | lia].
  - exists []. rewrite setState_sequence, setState_round, app_nil_r.
    split; [reflexivity | cbn; lia].
Qed.

(** X7: between two resets the sequence is append-only.  Calls of
    [nextRound], [press], [toggleStrict] and [setState] only extend the
    sequence at its end, and [round] grows by the number of elements
    added. *)
Theorem sequence_append_only : forall (ops : list Op) (g : Game),
  Forall no_reset ops ->
  exists added : list Z,
    sequence (run g ops) = sequence g ++ added /\
    round (run g ops) = round g + len added.
Proof.
  intros ops g Hops. revert g.
  induction Hops as [| o ops Ho _ IH]; intros g.
  - exists []. cbn. rewrite app_nil_r. split; [reflexivity | lia].
  - destruct (step_appends g o Ho) as (a1 & Hs1 & Hr1).
    destruct (IH (step g o)) as (a2 & Hs2 & Hr2).
    exists (a1 ++ a2). change (run g (o :: ops)) with (run (step g o) ops).
    rewrite Hs2, Hr2, Hs1, Hr1, app_assoc. split; [reflexivity |].
    unfold len. rewrite length_app. lia.
Qed.

Lemma sequence_append_only_witness :
  exists added : list Z,
    sequence (run (start (1 # 2) init)
                [OSetState 5; OPress 1; ONextRound (3 # 4)]) =
      sequence (start (1 # 2) init) ++ added /\
    round (run (start (1 # 2) init)
             [OSetState 5; OPress 1; ONextRound (3 # 4)]) =
      round (start (1 # 2) init) + len added.
Proof.
  apply (sequence_append_only [OSetState 5; OPress 1; ONextRound (3 # 4)]).
  repeat constructor.
Defined.

(** ** After the last round *)

(** X8: once [round] has reached [MAXROUND], calls of [nextRound] only
    set the state to [win] and the press counter to 0: [round] and the
    sequence stay, however many calls follow. *)
Theorem nextRound_at_cap_is_win : forall (rs : list Q) (g : Game),
  MAXROUND <= round g ->
  rs <> [] ->
  run g (map ONextRound rs) =
    {| state := states.win; round := round g; pressN := 0;
       strict := strict g; sequence := sequence g |}.
Proof.
  induction rs as [| r rs IH]; intros g Hcap Hne; [contradiction |].
  change (run g (map ONextRound (r :: rs)))
    with (run (nextRound r g) (map ONextRound rs)).
  rewrite nextRound_full by lia.
  destruct rs as [| r' rs]; [reflexivity |].
  rewrite IH by (cbn [round]; trivial; discriminate). reflexivity.
Qed.

Lemma nextRound_at_cap_is_win_witness :
  run {| state := states.allCorrect; round := 20; pressN := 20;
         strict := false; sequence := repeat 1 20 |}
      (map ONextRound [1 # 2; 1 # 3]) =
    {| state := states.win; round := 20; pressN := 0; strict := false;
       sequence := repeat 1 20 |}.
Proof.
  apply (nextRound_at_cap_is_win [1 # 2; 1 # 3]
           {| state := states.allCorrect; round := 20; pressN := 20;
              strict := false; sequence := repeat 1 20 |});
    [vm_compute; discriminate | discriminate].
Defined.

(** ** [toggleStrict] *)

(** X9: [n] calls of [toggleStrict] in a row leave the flag as it was
    when [n] is even and flip it when [n] is odd; nothing else changes. *)
Theorem toggleStrict_parity : forall (n : nat) (g : Game),
  run g (repeat OToggleStrict n) =
    {| state := state g; round := round g; pressN := pressN g;
       strict := if Nat.even n then strict g else negb (strict g);
       sequence := sequence g |}.
Proof.
  induction n as [n IH] using (well_founded_induction lt_wf); intros g.
  destruct n as [| [| n]].
  - destruct g; reflexivity.
  - reflexivity.
  - change (run g (repeat OToggleStrict (S (S n))))
      with (run (toggleStrict (toggleStrict g)) (repeat OToggleStrict n)).
    rewrite IH by lia. cbn. now rewrite negb_involutive.
Qed.

(** * The controller *)

(** ** [clearTimeouts] *)

Lemma pop_snoc (l : list nat) (p : nat) : pop (l ++ [p]) = (Some p, l).
Proof. unfold pop. rewrite rev_app_distr. cbn. now rewrite rev_involutive. Qed.

Lemma filter_off_stack_snoc (l : list nat) (p : nat) (ts : list Timer) :
  filter (off_stack l) (filter (fun t => negb (promise t =? p)%nat) ts) =
  filter (off_stack (l ++ [p])) ts.
Proof.
  induction ts as [| t ts IH]; [reflexivity |].
  unfold off_stack in *. cbn [filter]. rewrite existsb_app. cbn [existsb].
  rewrite orb_false_r.
  destruct (promise t =? p)%nat; cbn [negb filter].
  - rewrite orb_true_r. cbn [negb]. exact IH.
  - rewrite orb_false_r. rewrite IH. reflexivity.
Qed.

Lemma clearLoop_spec (l : list nat) : forall c : Ctrl,
  timeoutStack c = l ->
  clearLoop (length l) c =
    with_timeoutStack [] (with_pending (filter (off_stack l) (pending c)) c).
Proof.
  induction l as [| p l IH] using rev_ind; intros c Hc.
  - cbn. unfold off_stack. cbn.
    rewrite forallb_filter_id by (apply forallb_forall; reflexivity).
    destruct c; cbn in *; subst; reflexivity.
  - rewrite length_app, Nat.add_1_r. cbn [clearLoop].
    rewrite Hc, pop_snoc.
    rewrite IH by reflexivity.
    cbn [cancel with_timeoutStack with_pending pending].
    now rewrite filter_off_stack_snoc.
Qed.

(** X10: [clearTimeouts] pops the whole stack and cancels every promise
    it held: the stack ends empty, the timers left pending are those
    whose promise was not on the stack, and nothing else changes. *)
Theorem clearTimeouts_cancels_the_stack : forall c : Ctrl,
  clearTimeouts c =
    {| game := game c; abandoned := abandoned c;
       comTimeoutMS := comTimeoutMS c; lit := lit c;
       timeoutStack := [];
       pending := filter (off_stack (timeoutStack c)) (pending c);
       promises := promises c; sounds := sounds c |}.
Proof.
  intros c. unfold clearTimeouts. now rewrite clearLoop_spec.
Qed.

Lemma tracked_filter_nil (c : Ctrl) :
  tracked c -> filter (off_stack (timeoutStack c)) (pending c) = [].
Proof.
  intros Hc.
  assert (Hgen : forall ts, (forall t, In t ts -> In t (pending c)) ->
            filter (off_stack (timeoutStack c)) ts = []).
  { induction ts as [| t ts IH]; intros Hin; [reflexivity |].
    cbn [filter]. unfold off_stack at 1.
    assert (Hon : existsb (Nat.eqb (promise t)) (timeoutStack c) = true).
    { apply existsb_exists. exists (promise t).
      split; [apply Hc, Hin; now left | apply Nat.eqb_refl]. }
    rewrite Hon. cbn [negb]. apply IH. intros t' Ht'. apply Hin. now right. }
  apply Hgen. trivial.
Qed.

Lemma resetUI_tracked (c : Ctrl) :
  tracked c ->
  resetUI c =
    {| game := game c; abandoned := abandoned c;
       comTimeoutMS := Some CONFIG.startComTimeoutMS;
       lit := map (fun _ => false) (lit c);
       timeoutStack := []; pending := [];
       promises := promises c; sounds := sounds c |}.
Proof.
  intros Hc. unfold resetUI.
  unfold clearTimeouts. rewrite clearLoop_spec by reflexivity.
  rewrite tracked_filter_nil by exact Hc. reflexivity.
Qed.

(** ** The speed of the demo *)

Lemma incrementSpeed_spec (c : Ctrl) :
  incrementSpeed c =
    if existsb (Z.eqb (sg.getRound c)) CONFIG.incrementRounds then
      with_comTimeoutMS
        (Some (toNumber (comTimeoutMS c) - CONFIG.speedIncrement)) c
    else c.
Proof.
  unfold incrementSpeed, CONFIG.incrementRounds, sg.getRound.
  cbn [fold_left existsb].
  destruct (Z.eqb_spec (round (game c)) 5) as [H5 | H5].
  - cbn [with_comTimeoutMS game orb]. rewrite H5.
    cbn [Z.eqb Pos.eqb with_comTimeoutMS game]. rewrite H5. reflexivity.
  - destruct (Z.eqb_spec (round (game c)) 9) as [H9 | H9].
    + cbn [with_comTimeoutMS game orb]. rewrite H9. reflexivity.
    + cbn [orb]. rewrite orb_false_r. destruct (_ =? _); reflexivity.
Qed.

Lemma speedFor_bounds (n : Z) : 650 <= speedFor n <= 1100.
Proof.
  unfold speedFor, CONFIG.incrementRounds, CONFIG.startComTimeoutMS,
    CONFIG.speedIncrement, len.
  cbn [filter].
  destruct (5 <=? n); destruct (9 <=? n); destruct (13 <=? n);
    cbn [length]; lia.
Qed.

Lemma speedFor_succ (n : Z) :
  speedFor (n + 1) =
    if existsb (Z.eqb (n + 1)) CONFIG.incrementRounds
    then speedFor n - CONFIG.speedIncrement else speedFor n.
Proof.
  unfold speedFor, CONFIG.incrementRounds, CONFIG.startComTimeoutMS,
    CONFIG.speedIncrement, len.
  cbn [filter existsb].
  destruct (Z.leb_spec 5 n); destruct (Z.leb_spec 9 n);
    destruct (Z.leb_spec 13 n);
    destruct (Z.leb_spec 5 (n + 1)); destruct (Z.leb_spec 9 (n + 1));
    destruct (Z.leb_spec 13 (n + 1)); try lia;
    destruct (Z.eqb_spec (n + 1) 5); destruct (Z.eqb_spec (n + 1) 9);
    destruct (Z.eqb_spec (n + 1) 13); try lia; cbn [orb length]; lia.
Qed.

(** ** The invariant, operation by operation *)

Lemma allowed_playing (s : Z) (func : Callback) :
  states.comDemo <= s -> allowed s func.
Proof.
  intros Hs. unfold allowed.
  destruct (Z.eqb_spec s states.powerOff); [codes; lia |].
  destruct (Z.eqb_spec s states.powerOn); [codes; lia | exact I].
Qed.

Lemma allowed_not_off (s : Z) (func : Callback) :
  allowed s func -> s <> states.powerOff.
Proof.
  unfold allowed. destruct (Z.eqb_spec s states.powerOff); tauto.
Qed.

Lemma allowed_powerOn (s : Z) (func : Callback) :
  allowed s func -> s = states.powerOn -> exists i, func = CbLightOff i None.
Proof.
  unfold allowed. intros H ->. exact H.
Qed.

Lemma allowed_lightOff (s : Z) (i : Z) :
  s <> states.powerOff -> allowed s (CbLightOff i None).
Proof.
  intros Hs. unfold allowed.
  destruct (Z.eqb_spec s states.powerOff); [contradiction |].
  destruct (s =? states.powerOn); [now exists i | exact I].
Qed.

Lemma timer_ok_phase (c c' : Ctrl) (t : Timer) :
  (forall func, allowed (state (game c)) func ->
                allowed (state (game c')) func) ->
  abandoned c' = abandoned c ->
  timer_ok c t -> timer_ok c' t.
Proof.
  intros Hallowed Hab (Ha & Hd & Hcb). unfold timer_ok. rewrite Hab.
  split; [apply Hallowed, Ha |]. split; assumption.
Qed.

Lemma timers_ok_phase (c c' : Ctrl) (ts : list Timer) :
  (forall func, allowed (state (game c)) func ->
                allowed (state (game c')) func) ->
  abandoned c' = abandoned c ->
  Forall (timer_ok c) ts -> Forall (timer_ok c') ts.
Proof.
  intros Hallowed Hab Hts. eapply Forall_impl; [| exact Hts].
  intros t. now apply timer_ok_phase.
Qed.

(** The engine's variables change, the controller's do not. *)
Lemma wf_with_game (c : Ctrl) (g : Game) :
  wf c ->
  (forall func, allowed (state (game c)) func -> allowed (state g) func) ->
  (state g = states.powerOff \/ state g = states.powerOn \/
   states.comDemo <= state g <= states.win) ->
  0 <= round g <= MAXROUND ->
  (states.comDemo <= state g -> 1 <= round g) ->
  (state g = states.powerOff ->
     strict g = false /\ Forall (fun b => b = false) (lit c)) ->
  (state g <> states.powerOff -> comTimeoutMS c = Some (speedFor (round g))) ->
  wf (with_game g c).
Proof.
  intros [] Hallowed Hstate Hround Hplaying Hoff Hspeed.
  constructor; cbn [with_game game lit comTimeoutMS pending]; trivial.
  eapply timers_ok_phase; [| | eassumption]; trivial.
Qed.

(** Only the sounds or the lights change. *)
Lemma wf_play (s : Sound) (c : Ctrl) : wf c -> wf (play s c).
Proof.
  intros []. constructor; cbn [play game lit comTimeoutMS pending]; trivial.
Qed.

Lemma set_nth_length {A : Type} (n : nat) (x : A) (l : list A) :
  length (set_nth n x l) = length l.
Proof.
  revert n. induction l as [| y l IH]; intros [| n]; cbn; auto.
Qed.

Lemma set_nth_false (n : nat) (l : list bool) :
  Forall (fun b => b = false) l ->
  Forall (fun b => b = false) (set_nth n false l).
Proof.
  intros Hl. revert n.
  induction Hl as [| y l Hy Hl IH]; intros [| n]; cbn;
    constructor; auto.
Qed.

Lemma wf_with_lit (l : list bool) (c : Ctrl) :
  wf c -> length l = 4%nat ->
  (state (game c) = states.powerOff -> Forall (fun b => b = false) l) ->
  wf (with_lit l c).
Proof.
  intros [] Hlen Hoff.
  constructor; cbn [with_lit game lit comTimeoutMS pending]; trivial.
  intros Hs. split; [apply wf_off0, Hs | apply Hoff, Hs].
Qed.

Lemma wf_light (i : Z) (disableSound : bool) (c : Ctrl) :
  wf c -> state (game c) <> states.powerOff -> wf (light i disableSound c).
Proof.
  intros Hc Hon. unfold light.
  assert (Hc' : wf (if negb disableSound then play (ButtonSound i) c else c))
    by (destruct (negb disableSound); [apply wf_play |]; exact Hc).
  assert (Hstate : state (game (if negb disableSound
                                then play (ButtonSound i) c else c)) =
                   state (game c))
    by (destruct (negb disableSound); reflexivity).
  apply wf_with_lit; [exact Hc' | |].
  - rewrite set_nth_length. apply (wf_buttons _ Hc').
  - rewrite Hstate. contradiction.
Qed.

Lemma wf_unlight (i : Z) (c : Ctrl) : wf c -> wf (unlight i c).
Proof.
  intros Hc. unfold unlight. apply wf_with_lit; [exact Hc | |].
  - rewrite set_nth_length. apply (wf_buttons _ Hc).
  - intros Hoff. apply set_nth_false, (wf_off _ Hc), Hoff.
Qed.

Lemma wf_unlightAll (c : Ctrl) : wf c -> wf (unlightAll c).
Proof.
  intros Hc. unfold unlightAll. apply wf_with_lit; [exact Hc | |].
  - rewrite length_map. apply (wf_buttons _ Hc).
  - intros _. apply Forall_map, Forall_forall. reflexivity.
Qed.

(** Timers come and go. *)
Lemma wf_timeout (func : Callback) (ms : option Z) (c : Ctrl) :
  wf c ->
  timer_ok c {| promise := promises c; delay := ms; callback := func |} ->
  wf (timeout func ms c).
Proof.
  intros [] Hnew.
  constructor;
    cbn [timeout game lit comTimeoutMS pending timeoutStack]; trivial.
  - intros t Ht. apply in_app_iff in Ht. apply in_app_iff.
    destruct Ht as [Ht | [<- | []]]; [left; now apply wf_tracked0 |].
    right. now left.
  - apply Forall_app. split; [exact wf_timers0 |].
    constructor; [exact Hnew | constructor].
  - cbn [promises]. apply Forall_app. split.
    + eapply Forall_impl; [| exact wf_fresh0]. cbn. intros t Ht. lia.
    + constructor; [cbn; lia | constructor].
Qed.

Lemma wf_cancel (p : option nat) (c : Ctrl) : wf c -> wf (cancel p c).
Proof.
  intros Hc. destruct p as [n |]; [| exact Hc]. destruct Hc.
  constructor; cbn [cancel with_pending game lit comTimeoutMS pending
                    timeoutStack]; trivial.
  - intros t Ht. apply filter_In in Ht. now apply wf_tracked0.
  - apply Forall_forall. intros t Ht. apply filter_In in Ht.
    destruct Ht as [Ht _].
    eapply Forall_forall in wf_timers0; eassumption.
  - apply Forall_forall. intros t Ht. apply filter_In in Ht.
    destruct Ht as [Ht _].
    eapply Forall_forall in wf_fresh0; eassumption.
Qed.

Lemma button_Some (c : Ctrl) (i : option Z) (b : Z) :
  wf c -> button c i = Some b -> i = Some b /\ 0 <= b <= 3.
Proof.
  intros Hc. unfold button. destruct i as [i |]; [| discriminate].
  rewrite (wf_buttons _ Hc).
  destruct (Z.leb_spec 0 i); destruct (Z.ltb_spec i (Z.of_nat 4));
    cbn [andb]; try discriminate.
  intros [= ->]. split; [reflexivity | lia].
Qed.

Lemma light_game (i : Z) (disableSound : bool) (c : Ctrl) :
  game (light i disableSound c) = game c /\
  abandoned (light i disableSound c) = abandoned c /\
  comTimeoutMS (light i disableSound c) = comTimeoutMS c /\
  promises (light i disableSound c) = promises c.
Proof. unfold light. destruct disableSound; repeat split. Qed.

Lemma wf_lightColor (i : option Z) (ms : Z) (disableSound : bool)
    (nextState : option Z) (c : Ctrl) :
  wf c ->
  state (game c) <> states.powerOff ->
  0 < ms ->
  nextState = None \/
  (nextState = Some states.playerSequence /\
   states.comDemo <= state (game c)) ->
  wf (final (lightColor i ms disableSound nextState c)).
Proof.
  intros Hc Hon Hms Hnext. unfold lightColor.
  destruct (button c i) as [b |] eqn:Hb; [| exact Hc].
  destruct (button_Some c i b Hc Hb) as [_ Hrange].
  destruct (light_game b disableSound c) as (Hg & Hab & _ & _).
  cbn [final]. apply wf_timeout; [apply wf_light; assumption |].
  unfold timer_ok. cbn [callback delay]. rewrite Hg.
  split; [| split].
  - destruct Hnext as [-> | [-> Hplay]];
      [apply allowed_lightOff, Hon | apply allowed_playing, Hplay].
  - exists ms. split; [reflexivity | exact Hms].
  - split; [exact Hrange |]. destruct Hnext as [-> | [-> _]]; auto.
Qed.

Lemma lightColor_game (i : option Z) (ms : Z) (disableSound : bool)
    (nextState : option Z) (c : Ctrl) :
  game (final (lightColor i ms disableSound nextState c)) = game c /\
  abandoned (final (lightColor i ms disableSound nextState c)) =
    abandoned c /\
  comTimeoutMS (final (lightColor i ms disableSound nextState c)) =
    comTimeoutMS c.
Proof.
  unfold lightColor. destruct (button c i) as [b |]; [| repeat split].
  cbn [final timeout game abandoned comTimeoutMS].
  destruct (light_game b disableSound c) as (Hg & Hab & Hms & _).
  repeat split; assumption.
Qed.

Lemma wf_andThen_timeout (o : Outcome) (func : Callback) (ms : option Z) :
  wf (final o) ->
  timer_ok (final o)
    {| promise := promises (final o); delay := ms; callback := func |} ->
  wf (final (c <- o ;; Done (timeout func ms c))).
Proof.
  intros Ho Hnew. destruct o as [c | c]; cbn [andThen final] in *.
  - now apply wf_timeout.
  - exact Ho.
Qed.

Lemma wf_lightSequence (seq : nat) (lightMS : Z) (timeoutMS : option Z)
    (i : Z) (c : Ctrl) :
  wf c ->
  states.comDemo <= state (game c) ->
  seq = length (abandoned c) ->
  0 <= i ->
  lightMS = CONFIG.comPressMS ->
  (exists d : Z, timeoutMS = Some d /\ CONFIG.comPressMS < d) ->
  wf (final (lightSequence seq lightMS timeoutMS i c)).
Proof.
  intros Hc Hplay Hseq Hi HlightMS Hpace. unfold lightSequence.
  assert (Hon : state (game c) <> states.powerOff) by (codes; lia).
  assert (Hms : 0 < lightMS) by (subst; unfold CONFIG.comPressMS; lia).
  destruct (i <? len (deref c seq) - 1).
  - pose proof (lightColor_game (index (deref c seq) i) lightMS false None c)
      as (Hg & Hab & _).
    apply wf_andThen_timeout.
    + apply wf_lightColor; auto.
    + unfold timer_ok. cbn [callback delay]. rewrite Hg, Hab.
      split; [apply allowed_playing, Hplay |]. split.
      * destruct Hpace as (d & -> & Hd). exists d.
        split; [reflexivity |]. unfold CONFIG.comPressMS in Hd. lia.
      * repeat split; assumption.
  - destruct (i =? len (deref c seq) - 1); [| exact Hc].
    apply wf_lightColor; auto.
Qed.

Lemma wf_doComDemo (c : Ctrl) :
  wf c -> states.comDemo <= state (game c) -> wf (final (doComDemo c)).
Proof.
  intros Hc Hplay. unfold doComDemo, sg.getSequence.
  apply wf_lightSequence; trivial; try lia.
  rewrite (wf_speed _ Hc) by (codes; lia).
  exists (speedFor (round (game c))). split; [reflexivity |].
  pose proof (speedFor_bounds (round (game c))).
  unfold CONFIG.comPressMS. lia.
Qed.

Lemma wf_win (second : bool) (c : Ctrl) :
  wf c -> states.comDemo <= state (game c) -> wf (win second c).
Proof.
  intros Hc Hplay. unfold win.
  assert (Hon : state (game c) <> states.powerOff) by (codes; lia).
  assert (Hok : forall (func : Callback) (d : Z) (c' : Ctrl) (n : nat),
            game c' = game c -> 0 < d ->
            match func with
            | CbWinLight i => 0 <= i <= 3
            | CbWinOff | CbWinAgain | CbStart => True
            | _ => False
            end ->
            timer_ok c' {| promise := n; delay := Some d; callback := func |}).
  { intros func d c' n Hg Hd Hfunc. unfold timer_ok. cbn [callback delay].
    rewrite Hg. split; [apply allowed_playing, Hplay |].
    split; [exists d; split; [reflexivity | exact Hd] |].
    destruct func; trivial; contradiction. }
  destruct (light_game 1 false c) as (Hg & _).
  destruct second; cbn [negb];
    repeat (apply wf_timeout;
            [| apply Hok;
               [cbn [timeout game]; exact Hg | lia | try lia; exact I]]);
    apply wf_light; assumption.
Qed.

Lemma press_state_cases (btnI : Z) (g : Game) :
  state (snd (press btnI g)) = state g \/
  (state g = states.playerSequence /\
   (state (snd (press btnI g)) = states.mistake \/
    state (snd (press btnI g)) = states.allCorrect)).
Proof.
  unfold press.
  destruct (Z.eqb_spec (state g) states.playerSequence) as [Hps | Hps].
  - rewrite orb_true_r. cbn [negb with_pressN sequence pressN].
    destruct (neq _ _); [right; split; [exact Hps | now left] |].
    destruct (_ =? _); [right; split; [exact Hps | now right] | now left].
  - rewrite orb_false_r. destruct (negb _); now left.
Qed.

Lemma wf_press (i : Z) (c : Ctrl) : wf c -> wf (snd (sg.press i c)).
Proof.
  intros Hc. unfold sg.press. cbn [snd].
  pose proof (press_round i (game c)) as Hround.
  pose proof (press_strict i (game c)) as Hstrict.
  destruct (press_state_cases i (game c)) as [Hs | [Hps Hs]].
  - apply wf_with_game; trivial; rewrite ?Hs, ?Hround, ?Hstrict;
      try apply Hc; trivial.
  - assert (Hplay : states.comDemo <= state (snd (press i (game c))) <=
                    states.win) by (destruct Hs as [-> | ->]; codes; lia).
    apply wf_with_game; trivial; rewrite ?Hround, ?Hstrict.
    + intros func _. apply allowed_playing, Hplay.
    + right. right. exact Hplay.
    + apply Hc.
    + intros _. apply (wf_playing _ Hc). rewrite Hps. codes. lia.
    + intros Hoff. codes. lia.
    + intros _. apply (wf_speed _ Hc). rewrite Hps. codes. lia.
Qed.

Lemma wf_setState_playing (n : Z) (c : Ctrl) :
  wf c -> states.comDemo <= state (game c) ->
  states.comDemo <= n <= states.win ->
  wf (sg.setState n c) /\ state (game (sg.setState n c)) = n.
Proof.
  intros Hc Hplay Hn. unfold sg.setState.
  rewrite setState_valid by (codes; lia). split; [| reflexivity].
  apply wf_with_game; trivial; cbn [with_state state round strict].
  - intros func _. apply allowed_playing. lia.
  - right. right. exact Hn.
  - apply Hc.
  - intros _. apply (wf_playing _ Hc), Hplay.
  - intros Hoff. codes. lia.
  - intros _. apply (wf_speed _ Hc). codes. lia.
Qed.

Lemma wf_toggleStrict (c : Ctrl) :
  wf c -> state (game c) <> states.powerOff -> wf (sg.toggleStrict c).
Proof.
  intros Hc Hon. unfold sg.toggleStrict, toggleStrict.
  apply wf_with_game; trivial; cbn [with_strict state round strict];
    try apply Hc; trivial.
  intros Hoff. contradiction.
Qed.

Lemma wf_with_game_speed (c : Ctrl) (g : Game) (ms : option Z) :
  wf c ->
  (forall func, allowed (state (game c)) func -> allowed (state g) func) ->
  (state g = states.powerOff \/ state g = states.powerOn \/
   states.comDemo <= state g <= states.win) ->
  0 <= round g <= MAXROUND ->
  (states.comDemo <= state g -> 1 <= round g) ->
  (state g = states.powerOff ->
     strict g = false /\ Forall (fun b => b = false) (lit c)) ->
  (state g <> states.powerOff -> ms = Some (speedFor (round g))) ->
  wf (with_comTimeoutMS ms (with_game g c)).
Proof.
  intros [] Hallowed Hstate Hround Hplaying Hoff Hspeed.
  constructor;
    cbn [with_comTimeoutMS with_game game lit comTimeoutMS pending]; trivial.
  eapply timers_ok_phase; [| | eassumption]; trivial.
Qed.

Lemma wf_nextRound_incrementSpeed (r : Q) (c : Ctrl) :
  wf c -> states.comDemo <= state (game c) ->
  wf (incrementSpeed (sg.nextRound r c)) /\
  (state (game (incrementSpeed (sg.nextRound r c))) = states.comDemo \/
   state (game (incrementSpeed (sg.nextRound r c))) = states.win).
Proof.
  intros Hc Hplay.
  assert (Hon : state (game c) <> states.powerOff) by (codes; lia).
  pose proof (wf_round _ Hc) as Hround.
  pose proof (wf_speed _ Hc Hon) as Hspeed.
  rewrite incrementSpeed_spec. unfold sg.nextRound, sg.getRound.
  cbn [with_game game comTimeoutMS]. rewrite Hspeed. cbn [toNumber].
  destruct (Z.le_gt_cases (round (game c) + 1) MAXROUND) as [Hmore | Hfull].
  - rewrite nextRound_more by exact Hmore. cbn [round].
    pose proof (speedFor_succ (round (game c))) as Hsucc.
    destruct (existsb _ _); cbn [with_comTimeoutMS with_game game state];
      (split; [| now left]).
    + apply wf_with_game_speed; trivial; cbn [state round strict].
      * intros func _. apply allowed_playing. codes. lia.
      * right. right. codes. lia.
      * lia.
      * intros _. lia.
      * intros Hoff. discriminate Hoff.
      * intros _. now rewrite Hsucc.
    + apply wf_with_game; trivial; cbn [state round strict].
      * intros func _. apply allowed_playing. codes. lia.
      * right. right. codes. lia.
      * lia.
      * intros _. lia.
      * intros Hoff. discriminate Hoff.
      * intros _. now rewrite Hsucc.
  - rewrite nextRound_full by exact Hfull. cbn [round].
    assert (H20 : round (game c) = 20) by (codes; lia). rewrite H20.
    cbn [existsb CONFIG.incrementRounds Z.eqb Pos.eqb orb].
    split; [| now right].
    apply wf_with_game; trivial; cbn [state round strict].
    + intros func _. apply allowed_playing. codes. lia.
    + right. right. codes. lia.
    + codes. lia.
    + intros Hoff. discriminate Hoff.
    + intros _. now rewrite Hspeed, H20.
Qed.

Lemma start_eq (r : Q) (g : Game) :
  start r g =
    {| state := states.comDemo; round := 1; pressN := 0;
       strict := strict g; sequence := [randomSignal r] |}.
Proof.
  unfold start. now rewrite nextRound_more by (cbn; codes; lia).
Qed.

Lemma ctrl_togglePower_eq (c : Ctrl) :
  tracked c ->
  ctrl.togglePower c =
    {| game := togglePower (game c);
       abandoned :=
         if state (game c) =? states.powerOff
         then abandoned c ++ [sequence (game c)] else abandoned c;
       comTimeoutMS := Some CONFIG.startComTimeoutMS;
       lit := map (fun _ => false) (lit c);
       timeoutStack := []; pending := [];
       promises := promises c; sounds := sounds c ++ [SwitchSound] |}.
Proof.
  intros Hc. unfold ctrl.togglePower.
  rewrite resetUI_tracked.
  - unfold sg.togglePower. cbn [play game].
    destruct (state (game c) =? states.powerOff); reflexivity.
  - unfold sg.togglePower. cbn [play game].
    destruct (state (game c) =? states.powerOff); exact Hc.
Qed.

Lemma wf_togglePower (c : Ctrl) : wf c -> wf (ctrl.togglePower c).
Proof.
  intros Hc. rewrite ctrl_togglePower_eq by apply Hc.
  pose proof (wf_round _ Hc) as Hround.
  assert (Hfalse : Forall (fun b => b = false) (map (fun _ => false) (lit c)))
    by (apply Forall_map, Forall_forall; reflexivity).
  unfold togglePower.
  destruct (Z.eqb_spec (state (game c)) states.powerOff) as [Hoff | Hon].
  - constructor; cbn; trivial; try (codes; lia).
    + intros t [].
    + rewrite length_map. apply Hc.
  - constructor; cbn; trivial; try (codes; lia).
    + intros t [].
    + rewrite length_map. apply Hc.
    + auto.
Qed.

Lemma getPowerState_true (c : Ctrl) :
  getPowerState c = true <-> state (game c) <> states.powerOff.
Proof.
  unfold getPowerState, sg.isState.
  destruct (Z.eqb_spec (state (game c)) states.powerOff); cbn;
    split; congruence.
Qed.

(** The controller that [doComDemo] finds in [ctrl.start]. *)
Lemma started_eq (r : Q) (c : Ctrl) :
  tracked c ->
  sg.start r (resetUI c) =
    {| game :=
         {| state := states.comDemo; round := 1; pressN := 0;
            strict := strict (game c); sequence := [randomSignal r] |};
       abandoned := abandoned c ++ [sequence (game c)];
       comTimeoutMS := Some CONFIG.startComTimeoutMS;
       lit := map (fun _ => false) (lit c);
       timeoutStack := []; pending := [];
       promises := promises c; sounds := sounds c |}.
Proof.
  intros Hc. rewrite resetUI_tracked by exact Hc.
  unfold sg.start. cbn [game abandoned with_game with_abandoned].
  now rewrite start_eq.
Qed.

Lemma wf_started (r : Q) (c : Ctrl) :
  wf c -> wf (sg.start r (resetUI c)).
Proof.
  intros Hc. rewrite started_eq by apply Hc.
  constructor; cbn; trivial; try (codes; lia).
  - intros t [].
  - rewrite length_map. apply Hc.
Qed.

Lemma wf_start (r : Q) (c : Ctrl) : wf c -> wf (final (ctrl.start r c)).
Proof.
  intros Hc. unfold ctrl.start.
  destruct (getPowerState c); [| exact Hc].
  apply wf_doComDemo; [apply wf_started, Hc |].
  rewrite started_eq by apply Hc. cbn. lia.
Qed.

Lemma wf_toggleStrict_ctrl (c : Ctrl) : wf c -> wf (ctrl.toggleStrict c).
Proof.
  intros Hc. unfold ctrl.toggleStrict.
  destruct (getPowerState c) eqn:Hp; [| exact Hc].
  apply wf_toggleStrict; [exact Hc | now apply getPowerState_true].
Qed.

Lemma wf_pressColor (i : Z) (c : Ctrl) :
  wf c -> wf (final (ctrl.pressColor i c)).
Proof.
  intros Hc. unfold ctrl.pressColor.
  pose proof (wf_press i c Hc) as Hc'.
  destruct (sg.press i c) as [accepted c'] eqn:Hpress.
  cbn [snd] in Hc'.
  destruct accepted eqn:Hacc; cbn [negb]; [| exact Hc'].
  assert (Hon : state (game c') <> states.powerOff).
  { assert (Hfst : fst (sg.press i c) = true) by now rewrite Hpress.
    assert (Hsnd : c' = snd (sg.press i c)) by now rewrite Hpress.
    unfold sg.press in Hfst, Hsnd. cbn [fst snd] in Hfst, Hsnd. subst c'.
    cbn [with_game game].
    destruct (press_state_cases i (game c)) as [Hs | [_ [Hs | Hs]]];
      rewrite Hs; try (codes; lia).
    intros Hoff. unfold press in Hfst. rewrite Hoff in Hfst.
    discriminate Hfst. }
  unfold sg.getState.
  destruct (Z.eqb_spec (state (game c')) states.allCorrect) as [Hall | Hall].
  - pose proof (lightColor_game (Some i) CONFIG.playerPressMS false None c')
      as (Hg & _).
    apply wf_andThen_timeout.
    + apply wf_lightColor; auto. unfold CONFIG.playerPressMS. lia.
    + unfold timer_ok. cbn [callback delay]. rewrite Hg, Hall.
      split; [apply allowed_playing; codes; lia |].
      split; [exists 1600; split; [reflexivity | lia] | exact I].
  - destruct (Z.eqb_spec (state (game c')) states.mistake) as [Hmis | Hmis].
    + pose proof (lightColor_game (Some i) 1000 true None c') as (Hg & _).
      pose proof (wf_lightColor (Some i) 1000 true None c' Hc' Hon
                    ltac:(lia) (or_introl eq_refl)) as Hlight.
      destruct (lightColor (Some i) 1000 true None c') as [c'' | c''];
        cbn [andThen final] in *; [| exact Hlight].
      apply wf_timeout; [apply wf_play, Hlight |].
      unfold timer_ok. cbn [callback delay play game]. rewrite Hg, Hmis.
      split; [apply allowed_playing; codes; lia |].
      split; [exists 1500; split; [reflexivity | lia] | exact I].
    + apply wf_lightColor; auto. unfold CONFIG.playerPressMS. lia.
Qed.

Lemma wf_call (t : Timer) (r : Q) (c : Ctrl) :
  wf c -> timer_ok c t -> wf (final (call (callback t) r c)).
Proof.
  intros Hc (Hallowed & _ & Hcb).
  pose proof (allowed_not_off _ _ Hallowed) as Hon.
  assert (Hplay : (forall i, callback t <> CbLightOff i None) ->
                  states.comDemo <= state (game c)).
  { intros Hnot. destruct (wf_state _ Hc) as [Hs | [Hs | Hs]].
    - contradiction.
    - destruct (allowed_powerOn _ _ Hallowed Hs) as [i Hi].
      now apply Hnot in Hi.
    - apply Hs. }
  destruct (callback t) as [i [n |] | seq lightMS timeoutMS i | | | i | | |];
    cbn [call].
  - destruct Hcb as [_ [Hn | [= ->]]]; [discriminate |].
    cbn [final]. apply wf_setState_playing.
    + apply wf_unlight, Hc.
    + apply Hplay. discriminate.
    + codes. lia.
  - cbn [final]. apply wf_unlight, Hc.
  - destruct Hcb as (Hseq & Hi & HlightMS & Hdelay & Hpace).
    apply wf_lightSequence; trivial; try lia.
    apply Hplay. discriminate.
  - destruct (wf_nextRound_incrementSpeed r c Hc) as [Hc' Hs];
      [apply Hplay; discriminate |].
    unfold sg.isState.
    destruct Hs as [Hs | Hs]; rewrite Hs;
      cbn [Z.eqb states.comDemo states.win Pos.eqb].
    + apply wf_doComDemo; [exact Hc' | rewrite Hs; lia].
    + cbn [final]. apply wf_win; [exact Hc' | rewrite Hs; codes; lia].
  - destruct (sg.getStrict c); [apply wf_start, Hc |].
    destruct (wf_setState_playing states.comDemo c Hc) as [Hc' Hs];
      [apply Hplay; discriminate | codes; lia |].
    apply wf_doComDemo; [exact Hc' | rewrite Hs; lia].
  - cbn [final]. apply wf_light; assumption.
  - cbn [final]. apply wf_unlightAll, Hc.
  - cbn [final]. apply wf_win; [exact Hc | apply Hplay; discriminate].
  - apply wf_start, Hc.
Qed.

Lemma wf_fire (p : nat) (r : Q) (c : Ctrl) :
  wf c -> wf (final (fire p r c)).
Proof.
  intros Hc. unfold fire.
  destruct (find _ (pending c)) as [t |] eqn:Hfind; [| exact Hc].
  apply find_some in Hfind. destruct Hfind as [Hin _].
  apply wf_call; [apply wf_cancel, Hc |].
  pose proof (wf_timers _ Hc) as Hts.
  eapply Forall_forall in Hts; [| exact Hin].
  exact Hts.
Qed.

Lemma wf_react (c : Ctrl) (e : Event) : wf c -> wf (react c e).
Proof.
  intros Hc. unfold react.
  destruct e as [| r | | i | p r]; cbn [handle final].
  - apply wf_togglePower, Hc.
  - apply wf_start, Hc.
  - apply wf_toggleStrict_ctrl, Hc.
  - apply wf_pressColor, Hc.
  - apply wf_fire, Hc.
Qed.

Lemma wf_loaded : wf loaded.
Proof.
  constructor; cbn; trivial; try (codes; lia).
  - intros t [].
  - intros _. split; [reflexivity | repeat constructor].
Qed.

Lemma play_out_invariant (P : Ctrl -> Prop) :
  (forall c e, P c -> P (react c e)) ->
  forall c es, P c -> P (play_out c es).
Proof.
  intros Hstep c es. revert c.
  induction es as [| e es IH]; intros c Hc; cbn.
  - exact Hc.
  - apply IH, Hstep, Hc.
Qed.

Lemma wf_session (es : list Event) : wf (session es).
Proof.
  unfold session. apply play_out_invariant; [apply wf_react | apply wf_loaded].
Qed.

(** ** What holds throughout a session *)

(** X11: whenever the power is off, no timer is pending, strict play
    is off and no button is lit. *)
Theorem power_off_is_quiet : forall es : list Event,
  state (game (session es)) = states.powerOff ->
  pending (session es) = [] /\
  strict (game (session es)) = false /\
  Forall (fun b => b = false) (lit (session es)).
Proof.
  intros es Hoff. pose proof (wf_session es) as Hwf.
  split; [| apply (wf_off _ Hwf), Hoff].
  pose proof (wf_timers _ Hwf) as Hts.
  destruct (pending (session es)) as [| t ts]; [reflexivity |].
  apply Forall_inv in Hts. destruct Hts as (Hallowed & _).
  apply allowed_not_off in Hallowed. contradiction.
Qed.

(** Power on, a game started, a button lit, then power off. *)
Lemma power_off_is_quiet_witness :
  pending (session [EvTogglePower; EvStart (1 # 2); EvTogglePower]) = [] /\
  strict (game (session [EvTogglePower; EvStart (1 # 2); EvTogglePower])) =
    false /\
  Forall (fun b => b = false)
    (lit (session [EvTogglePower; EvStart (1 # 2); EvTogglePower])).
Proof.
  apply (power_off_is_quiet [EvTogglePower; EvStart (1 # 2); EvTogglePower]).
  reflexivity.
Defined.

(** X12: every pending timer has its promise on [timeoutStack], so the
    power switch cancels all of them: after [togglePower] no timer is
    pending and the stack is empty. *)
Theorem timers_are_tracked_and_cancelled : forall es : list Event,
  (forall t : Timer,
     In t (pending (session es)) ->
     In (promise t) (timeoutStack (session es))) /\
  pending (session (es ++ [EvTogglePower])) = [] /\
  timeoutStack (session (es ++ [EvTogglePower])) = [].
Proof.
  intros es. pose proof (wf_session es) as Hwf.
  split; [apply (wf_tracked _ Hwf) |].
  unfold session, play_out. rewrite fold_left_app. cbn [fold_left].
  fold (play_out loaded es). fold (session es).
  unfold react. cbn [handle final].
  rewrite ctrl_togglePower_eq by apply (wf_tracked _ Hwf).
  split; reflexivity.
Qed.

(** X13: the counter shows nothing exactly when the power is off and
    dashes exactly in [powerOn]; otherwise it shows the round, which
    is then between 1 and [MAXROUND]: never 0. *)
Theorem count_text_is_never_zero : forall es : list Event,
  match getCountText (session es) with
  | Blank => state (game (session es)) = states.powerOff
  | Dashes => state (game (session es)) = states.powerOn
  | Count n =>
      n = round (game (session es)) /\ 1 <= n <= MAXROUND /\
      states.comDemo <= state (game (session es)) <= states.win
  end.
Proof.
  intros es. pose proof (wf_session es) as Hwf.
  unfold getCountText, getPowerState, sg.isState, sg.getRound.
  destruct (Z.eqb_spec (state (game (session es))) states.powerOff)
    as [Hoff | Hon]; cbn [negb]; [exact Hoff |].
  destruct (Z.eqb_spec (state (game (session es))) states.powerOn)
    as [Hpow | Hplay]; [exact Hpow |].
  destruct (wf_state _ Hwf) as [Hs | [Hs | Hs]]; try contradiction.
  pose proof (wf_round _ Hwf). pose proof (wf_playing _ Hwf (proj1 Hs)).
  repeat split; lia.
Qed.

(** X14: while the power is on, the pause between two lights of the
    demo is the initial 1100 ms less 150 ms for each of the rounds 5, 9
    and 13 reached; it is never [null], never below 650 ms, and always
    longer than the 600 ms a demo light stays on. *)
Theorem demo_pause_follows_round : forall es : list Event,
  state (game (session es)) <> states.powerOff ->
  comTimeoutMS (session es) = Some (speedFor (round (game (session es)))) /\
  650 <= speedFor (round (game (session es))) <= 1100 /\
  CONFIG.comPressMS < speedFor (round (game (session es))).
Proof.
  intros es Hon. pose proof (wf_session es) as Hwf.
  pose proof (speedFor_bounds (round (game (session es)))) as Hb.
  split; [apply (wf_speed _ Hwf), Hon |].
  split; [exact Hb | unfold CONFIG.comPressMS; lia].
Qed.

Lemma demo_pause_follows_round_witness :
  comTimeoutMS (session [EvTogglePower; EvStart (1 # 2)]) =
    Some (speedFor (round (game (session [EvTogglePower; EvStart (1 # 2)]))))
  /\
  650 <= speedFor (round (game (session [EvTogglePower; EvStart (1 # 2)])))
      <= 1100 /\
  CONFIG.comPressMS <
    speedFor (round (game (session [EvTogglePower; EvStart (1 # 2)]))).
Proof.
  apply (demo_pause_follows_round [EvTogglePower; EvStart (1 # 2)]).
  vm_compute. discriminate.
Defined.

(** X15: what the pending timers hold.  Each has a positive delay
    (never [null]).  A light-off is for one of the four buttons and
    sets, if any, the state [playerSequence]; a step of the demo
    refers to the engine's current array, lights for 600 ms and comes
    after a longer pause; a win light is one of the four buttons. *)
Theorem pending_timers_are_sound : forall (es : list Event) (t : Timer),
  In t (pending (session es)) ->
  (exists d : Z, delay t = Some d /\ 0 < d) /\
  match callback t with
  | CbLightOff i nextState =>
      0 <= i <= 3 /\
      (nextState = None \/ nextState = Some states.playerSequence)
  | CbLightSequence seq lightMS timeoutMS i =>
      seq = sg.getSequence (session es) /\ 0 <= i /\
      lightMS = CONFIG.comPressMS /\ timeoutMS = delay t /\
      (exists d : Z, timeoutMS = Some d /\ CONFIG.comPressMS < d)
  | CbWinLight i => 0 <= i <= 3
  | _ => True
  end.
Proof.
  intros es t Hin. pose proof (wf_timers _ (wf_session es)) as Hts.
  eapply Forall_forall in Hts; [| exact Hin].
  destruct Hts as (_ & Hd & Hcb). split; [exact Hd | exact Hcb].
Qed.

(** The light-off that [start] leaves pending. *)
Lemma pending_timers_are_sound_witness :
  (exists d : Z, Some 600 = Some d /\ 0 < d) /\
  0 <= 1 <= 3 /\
  (Some states.playerSequence = None \/
   Some states.playerSequence = Some states.playerSequence).
Proof.
  apply (pending_timers_are_sound [EvTogglePower; EvStart (1 # 2)]
           {| promise := 0; delay := Some 600;
              callback := CbLightOff 1 (Some states.playerSequence) |}).
  vm_compute. left. reflexivity.
Defined.

(** ** Presses the engine rejects *)

(** X16: a click on a button while the engine is neither in [powerOn]
    nor in [playerSequence] (during the demo, after a mistake, with the
    power off, ...) does nothing at all: no light, no sound, no timer. *)
Theorem rejected_press_does_nothing : forall (i : Z) (c : Ctrl),
  state (game c) <> states.powerOn ->
  state (game c) <> states.playerSequence ->
  ctrl.pressColor i c = Done c.
Proof.
  intros i c Hon Hps. unfold ctrl.pressColor, sg.press, press.
  destruct (Z.eqb_spec (state (game c)) states.powerOn); [contradiction |].
  destruct (Z.eqb_spec (state (game c)) states.playerSequence);
    [contradiction |].
  cbn [orb negb fst snd]. destruct c; reflexivity.
Qed.

Lemma rejected_press_does_nothing_witness :
  ctrl.pressColor 2 (session [EvTogglePower; EvStart (1 # 2)]) =
    Done (session [EvTogglePower; EvStart (1 # 2)]).
Proof.
  apply rejected_press_does_nothing; vm_compute; discriminate.
Defined.

(** ** Handlers that run to their end *)

Lemma index_in_bounds (l : list Z) (i : Z) :
  0 <= i < len l -> exists x : Z, index l i = Some x /\ In x l.
Proof.
  intros Hi. unfold index, len in *.
  destruct (Z.ltb_spec i 0); [lia |].
  destruct (nth_error l (Z.to_nat i)) as [x |] eqn:Hx.
  - exists x. split; [reflexivity | eapply nth_error_In, Hx].
  - apply nth_error_None in Hx. lia.
Qed.

Lemma deref_live (c : Ctrl) :
  deref c (length (abandoned c)) = sequence (game c).
Proof. unfold deref. now rewrite Nat.eqb_refl. Qed.

Lemma lightColor_runs (x ms : Z) (disableSound : bool)
    (nextState : option Z) (c : Ctrl) :
  wf c -> 0 <= x <= 3 ->
  lightColor (Some x) ms disableSound nextState c =
    Done (timeout (CbLightOff x nextState) (Some ms)
            (light x disableSound c)).
Proof.
  intros Hc Hx. unfold lightColor, button. rewrite (wf_buttons _ Hc).
  destruct (Z.leb_spec 0 x); [| lia].
  destruct (Z.ltb_spec x (Z.of_nat 4)); [| lia].
  reflexivity.
Qed.

Lemma lightSequence_runs (seq : nat) (lightMS : Z) (timeoutMS : option Z)
    (i : Z) (c : Ctrl) :
  wf c -> seq = length (abandoned c) ->
  signals (sequence (game c)) -> 0 <= i ->
  exists c' : Ctrl,
    lightSequence seq lightMS timeoutMS i c = Done c' /\ game c' = game c.
Proof.
  intros Hc -> Hsig Hi. unfold lightSequence. rewrite deref_live.
  assert (Hlit : forall nextState, i < len (sequence (game c)) ->
            lightColor (index (sequence (game c)) i) lightMS false
              nextState c =
            Done (timeout
                    (CbLightOff
                       (match index (sequence (game c)) i with
                        | Some x => x | None => 0 end)
                       nextState)
                    (Some lightMS)
                    (light (match index (sequence (game c)) i with
                            | Some x => x | None => 0 end) false c))).
  { intros nextState Hlt.
    destruct (index_in_bounds (sequence (game c)) i) as (x & Hx & Hin);
      [lia |].
    rewrite Hx. apply lightColor_runs; [exact Hc |].
    unfold signals in Hsig. eapply Forall_forall in Hsig; eassumption. }
  destruct (Z.ltb_spec i (len (sequence (game c)) - 1)) as [Hlt | Hge].
  - rewrite Hlit by lia. cbn [andThen]. eexists. split; [reflexivity |].
    cbn [timeout game]. apply light_game.
  - destruct (Z.eqb_spec i (len (sequence (game c)) - 1)) as [Heq | Hne].
    + rewrite Hlit by lia. eexists. split; [reflexivity |].
      cbn [timeout game]. apply light_game.
    + exists c. split; reflexivity.
Qed.

Lemma doComDemo_runs (c : Ctrl) :
  wf c -> signals (sequence (game c)) ->
  exists c' : Ctrl, doComDemo c = Done c' /\ game c' = game c.
Proof.
  intros Hc Hsig. unfold doComDemo, sg.getSequence.
  apply lightSequence_runs; trivial. lia.
Qed.

Lemma start_runs (r : Q) (c : Ctrl) :
  wf c -> (0 <= r)%Q -> (r < 1)%Q -> signals (sequence (game c)) ->
  exists c' : Ctrl,
    ctrl.start r c = Done c' /\ signals (sequence (game c')).
Proof.
  intros Hc Hlo Hhi Hsig. unfold ctrl.start.
  destruct (getPowerState c); [| exists c; split; trivial].
  assert (Hsig' : signals (sequence (game (sg.start r (resetUI c))))).
  { rewrite started_eq by apply Hc. cbn [game sequence].
    constructor; [apply randomSignal_range; assumption | constructor]. }
  destruct (doComDemo_runs _ (wf_started r c Hc) Hsig') as (c' & Hrun & Hg).
  exists c'. split; [exact Hrun | now rewrite Hg].
Qed.

Lemma pressColor_runs (i : Z) (c : Ctrl) :
  wf c -> 0 <= i <= 3 -> signals (sequence (game c)) ->
  exists c' : Ctrl,
    ctrl.pressColor i c = Done c' /\ signals (sequence (game c')).
Proof.
  intros Hc Hi Hsig. unfold ctrl.pressColor.
  pose proof (wf_press i c Hc) as Hc'.
  assert (Hsig' : signals (sequence (game (snd (sg.press i c)))))
    by (unfold sg.press; cbn [snd with_game game];
        now rewrite press_sequence).
  destruct (sg.press i c) as [accepted c'].
  cbn [snd] in Hc', Hsig'.
  destruct accepted; cbn [negb]; [| exists c'; split; trivial].
  destruct (sg.getState c' =? states.allCorrect);
    [| destruct (sg.getState c' =? states.mistake)];
    rewrite lightColor_runs by assumption; cbn [andThen];
    (eexists; split; [reflexivity |]);
    cbn [timeout play game];
    now rewrite (proj1 (light_game _ _ _)).
Qed.

Lemma incrementSpeed_game (c : Ctrl) : game (incrementSpeed c) = game c.
Proof.
  rewrite incrementSpeed_spec. destruct (existsb _ _); reflexivity.
Qed.

Lemma win_game (second : bool) (c : Ctrl) : game (win second c) = game c.
Proof.
  unfold win. destruct second; cbn [negb timeout game]; apply light_game.
Qed.

Lemma call_runs (t : Timer) (r : Q) (c : Ctrl) :
  wf c -> timer_ok c t -> (0 <= r)%Q -> (r < 1)%Q ->
  signals (sequence (game c)) ->
  exists c' : Ctrl,
    call (callback t) r c = Done c' /\ signals (sequence (game c')).
Proof.
  intros Hc (Hallowed & _ & Hcb) Hlo Hhi Hsig.
  destruct (callback t) as [i [n |] | seq lightMS timeoutMS i | | | i | | |];
    cbn [call].
  - eexists. split; [reflexivity |].
    unfold sg.setState. cbn [with_game game unlight with_lit].
    now rewrite setState_sequence.
  - eexists. split; [reflexivity | exact Hsig].
  - destruct Hcb as (Hseq & Hi & _).
    destruct (lightSequence_runs seq lightMS timeoutMS (i + 1) c)
      as (c' & Hrun & Hg); trivial; try lia.
    exists c'. split; [exact Hrun | now rewrite Hg].
  - assert (Hplay : states.comDemo <= state (game c)).
    { destruct (wf_state _ Hc) as [Hs | [Hs | Hs]].
      - apply allowed_not_off in Hallowed. contradiction.
      - destruct (allowed_powerOn _ _ Hallowed Hs) as [i Hi]. discriminate.
      - apply Hs. }
    destruct (wf_nextRound_incrementSpeed r c Hc Hplay) as [Hc' _].
    assert (Hsig' : signals
              (sequence (game (incrementSpeed (sg.nextRound r c))))).
    { rewrite incrementSpeed_game. unfold sg.nextRound. cbn [with_game game].
      now apply nextRound_signals. }
    destruct (sg.isState states.comDemo _).
    + destruct (doComDemo_runs _ Hc' Hsig') as (c' & Hrun & Hg).
      exists c'. split; [exact Hrun | now rewrite Hg].
    + destruct (sg.isState states.win _);
        (eexists; split; [reflexivity |]); rewrite ?win_game; exact Hsig'.
  - destruct (sg.getStrict c); [now apply start_runs |].
    assert (Hplay : states.comDemo <= state (game c)).
    { destruct (wf_state _ Hc) as [Hs | [Hs | Hs]].
      - apply allowed_not_off in Hallowed. contradiction.
      - destruct (allowed_powerOn _ _ Hallowed Hs) as [i Hi]. discriminate.
      - apply Hs. }
    destruct (wf_setState_playing states.comDemo c Hc Hplay) as [Hc' _];
      [codes; lia |].
    assert (Hsig' : signals
              (sequence (game (sg.setState states.comDemo c))))
      by (unfold sg.setState; cbn [with_game game];
          now rewrite setState_sequence).
    destruct (doComDemo_runs _ Hc' Hsig') as (c' & Hrun & Hg).
    exists c'. split; [exact Hrun | now rewrite Hg].
  - eexists. split; [reflexivity |].
    now rewrite (proj1 (light_game _ _ _)).
  - eexists. split; [reflexivity | exact Hsig].
  - eexists. split; [reflexivity |]. now rewrite win_game.
  - now apply start_runs.
Qed.

Lemma handle_runs (c : Ctrl) (e : Event) :
  wf c -> event_in_range e -> signals (sequence (game c)) ->
  exists c' : Ctrl, handle c e = Done c' /\ signals (sequence (game c')).
Proof.
  intros Hc He Hsig. destruct e as [| r | | i | p r]; cbn [handle].
  - eexists. split; [reflexivity |].
    rewrite ctrl_togglePower_eq by apply Hc. cbn [game].
    destruct (togglePower_sequence (game c)) as [-> | ->];
      [exact Hsig | constructor].
  - destruct He as [Hlo Hhi]. now apply start_runs.
  - eexists. split; [reflexivity |].
    unfold ctrl.toggleStrict. destruct (getPowerState c); exact Hsig.
  - now apply pressColor_runs.
  - destruct He as [Hlo Hhi]. unfold fire.
    destruct (find _ (pending c)) as [t |] eqn:Hfind;
      [| exists c; split; trivial].
    apply find_some in Hfind. destruct Hfind as [Hin _].
    pose proof (wf_timers _ Hc) as Hts.
    eapply Forall_forall in Hts; [| exact Hin].
    apply call_runs; trivial. apply wf_cancel, Hc.
Qed.

Lemma session_signals (es : list Event) :
  Forall event_in_range es -> signals (sequence (game (session es))).
Proof.
  intros Hes. unfold session.
  assert (Hgen : forall c, wf c -> signals (sequence (game c)) ->
            signals (sequence (game (play_out c es)))).
  { induction Hes as [| e es He _ IH]; intros c Hc Hsig; cbn.
    - exact Hsig.
    - apply IH; [apply wf_react, Hc |]. unfold react.
      destruct (handle_runs c e Hc He Hsig) as (c' & -> & Hsig').
      exact Hsig'. }
  apply Hgen; [apply wf_loaded | constructor].
Qed.

(** X17: with clicks on the four buttons and [Math.random()] in
    [0, 1), no handler ever reaches for a button that does not exist:
    every click and every timer runs to its end, and the sequence holds
    button indices only. *)
Theorem no_handler_throws : forall (es : list Event) (e : Event),
  Forall event_in_range es ->
  event_in_range e ->
  (exists c : Ctrl, handle (session es) e = Done c) /\
  Forall (fun x => 0 <= x <= 3) (sequence (game (session es))).
Proof.
  intros es e Hes He.
  pose proof (session_signals es Hes) as Hsig.
  split; [| exact Hsig].
  destruct (handle_runs (session es) e (wf_session es) He Hsig)
    as (c' & Hrun & _).
  now exists c'.
Qed.

Lemma no_handler_throws_witness :
  (exists c : Ctrl,
     handle (session [EvTogglePower; EvStart (1 # 2)]) (EvTimer 0 (3 # 4)) =
       Done c) /\
  Forall (fun x => 0 <= x <= 3)
    (sequence (game (session [EvTogglePower; EvStart (1 # 2)]))).
Proof.
  apply (no_handler_throws [EvTogglePower; EvStart (1 # 2)]
           (EvTimer 0 (3 # 4))).
  - repeat constructor; (discriminate || reflexivity).
  - split; (discriminate || reflexivity).
Defined.

(** ** Starting a game *)

Lemma four_unlit (l : list bool) :
  length l = 4%nat -> map (fun _ => false) l = [false; false; false; false].
Proof.
  destruct l as [| a [| b [| c [| d [| e l]]]]]; try discriminate.
  reflexivity.
Qed.

(** X18: [ctrl.start] with the power on, whatever was going on: every
    timer is cancelled, the engine starts round 1 with one signal [x],
    the pause is back to 1100 ms, button [x] alone is lit and its sound
    played, and the one pending timer is the light-off that will set
    [playerSequence] after 600 ms. *)
Theorem start_shows_the_first_signal : forall (es : list Event) (r : Q),
  (0 <= r)%Q -> (r < 1)%Q ->
  state (game (session es)) <> states.powerOff ->
  let c := session es in
  let x := randomSignal r in
  handle c (EvStart r) =
    Done
      {| game :=
           {| state := states.comDemo; round := 1; pressN := 0;
              strict := strict (game c); sequence := [x] |};
         abandoned := abandoned c ++ [sequence (game c)];
         comTimeoutMS := Some 1100;
         lit := set_nth (Z.to_nat x) true [false; false; false; false];
         timeoutStack := [promises c];
         pending :=
           [{| promise := promises c; delay := Some 600;
               callback := CbLightOff x (Some states.playerSequence) |}];
         promises := S (promises c);
         sounds := sounds c ++ [ButtonSound x] |}.
Proof.
  intros es r Hlo Hhi Hon c x.
  pose proof (wf_session es) as Hc. fold c in Hc, Hon.
  pose proof (randomSignal_range r Hlo Hhi) as Hx. fold x in Hx.
  pose proof (wf_started r c Hc) as Hc'.
  cbn [handle]. unfold ctrl.start.
  rewrite (proj2 (getPowerState_true c) Hon).
  unfold doComDemo, sg.getSequence, lightSequence. rewrite deref_live.
  rewrite started_eq in * by apply Hc. fold x in Hc' |- *.
  clearbody x c.
  cbn [game sequence comTimeoutMS abandoned].
  change (len [x] - 1) with 0. change (index [x] 0) with (Some x).
  cbn [Z.ltb Z.eqb Z.compare].
  rewrite lightColor_runs by assumption.
  rewrite (four_unlit _ (wf_buttons _ Hc)). reflexivity.
Qed.

Lemma start_shows_the_first_signal_witness :
  handle (session [EvTogglePower]) (EvStart (1 # 2)) =
    Done
      {| game :=
           {| state := states.comDemo; round := 1; pressN := 0;
              strict := false; sequence := [1] |};
         abandoned := [[]; []];
         comTimeoutMS := Some 1100;
         lit := [false; true; false; false];
         timeoutStack := [0%nat];
         pending :=
           [{| promise := 0; delay := Some 600;
               callback := CbLightOff 1 (Some states.playerSequence) |}];
         promises := 1;
         sounds := [SwitchSound; ButtonSound 1] |}.
Proof.
  apply (start_shows_the_first_signal [EvTogglePower] (1 # 2));
    [discriminate | reflexivity | vm_compute; discriminate].
Defined.

(** ** The demo *)

Lemma find_newest (ts : list Timer) (t0 : Timer) :
  Forall (fun t => (promise t < promise t0)%nat) ts ->
  find (fun t => (promise t =? promise t0)%nat) (ts ++ [t0]) = Some t0.
Proof.
  induction 1 as [| t ts Ht _ IH]; cbn [app find].
  - now rewrite Nat.eqb_refl.
  - destruct (Nat.eqb_spec (promise t) (promise t0)); [lia | exact IH].
Qed.

(** The timer just created fires. *)
Lemma fire_newest (func : Callback) (ms : option Z) (r : Q) (c : Ctrl) :
  wf c ->
  fire (promises c) r (timeout func ms c) =
    call func r (cancel (Some (promises c)) (timeout func ms c)).
Proof.
  intros Hc. unfold fire. cbn [timeout pending].
  pose proof (find_newest (pending c)
                {| promise := promises c; delay := ms; callback := func |}
                (wf_fresh _ Hc)) as Hfind.
  cbn [promise] in Hfind. rewrite Hfind. reflexivity.
Qed.

Lemma index_app_middle (done rest : list Z) (x : Z) :
  index (done ++ x :: rest) (len done) = Some x.
Proof.
  unfold len. rewrite index_of_nat.
  rewrite nth_error_app2 by lia. now rewrite Nat.sub_diag.
Qed.

Lemma cancel_frame (p : option nat) (c : Ctrl) :
  game (cancel p c) = game c /\ abandoned (cancel p c) = abandoned c /\
  promises (cancel p c) = promises c /\ sounds (cancel p c) = sounds c.
Proof. destruct p; repeat split. Qed.

Lemma light_sounds (x : Z) (c : Ctrl) :
  sounds (light x false c) = sounds c ++ [ButtonSound x].
Proof. reflexivity. Qed.

Lemma fire_found (c : Ctrl) (p : nat) (r : Q) (t : Timer) :
  find (fun t => (promise t =? p)%nat) (pending c) = Some t ->
  fire p r c = call (callback t) r (cancel (Some p) c).
Proof. intros Hfind. unfold fire. now rewrite Hfind. Qed.

Lemma find_old (ts l : list Timer) (p q : nat) :
  Forall (fun t => (promise t < p)%nat) ts -> (p <= q)%nat ->
  find (fun t => (promise t =? q)%nat) (ts ++ l) =
  find (fun t => (promise t =? q)%nat) l.
Proof.
  intros Hts Hpq. induction Hts as [| t ts Ht _ IH]; [reflexivity |].
  cbn [app find]. destruct (Nat.eqb_spec (promise t) q); [lia | exact IH].
Qed.

Lemma filter_old (ts : list Timer) (p q : nat) :
  Forall (fun t => (promise t < p)%nat) ts -> (p <= q)%nat ->
  filter (fun t => negb (promise t =? q)%nat) ts = ts.
Proof.
  intros Hts Hpq. induction Hts as [| t ts Ht _ IH]; [reflexivity |].
  cbn [filter]. destruct (Nat.eqb_spec (promise t) q); [lia |].
  cbn [negb]. now rewrite IH.
Qed.

(** Of the two timers a step of the demo creates, the first comes due
    first, then the second. *)
Lemma find_first_of_two (f1 f2 : Callback) (m1 m2 : option Z) (x : Z)
    (c : Ctrl) :
  fresh c ->
  find (fun t => (promise t =? promises c)%nat)
    (pending (timeout f2 m2 (timeout f1 m1 (light x false c)))) =
  Some {| promise := promises c; delay := m1; callback := f1 |}.
Proof.
  intros Hc. cbn [timeout pending promises light with_lit play negb].
  rewrite <- app_assoc. rewrite (find_old _ _ (promises c)) by (trivial; lia).
  cbn [app find promise]. now rewrite Nat.eqb_refl.
Qed.

Lemma find_second_of_two (f1 f2 : Callback) (m1 m2 : option Z) (x : Z)
    (c : Ctrl) :
  fresh c ->
  find (fun t => (promise t =? S (promises c))%nat)
    (pending
       (unlight x
          (cancel (Some (promises c))
             (timeout f2 m2 (timeout f1 m1 (light x false c)))))) =
  Some {| promise := S (promises c); delay := m2; callback := f2 |}.
Proof.
  intros Hc.
  cbn [timeout pending promises light with_lit play negb unlight cancel
       with_pending].
  rewrite <- app_assoc, filter_app.
  rewrite (filter_old _ (promises c)) by (trivial; lia).
  rewrite (find_old _ _ (promises c)) by (trivial; lia).
  cbn [app filter promise]. rewrite Nat.eqb_refl. cbn [negb].
  destruct (Nat.eqb_spec (S (promises c)) (promises c)); [lia |].
  cbn [negb find promise]. now rewrite Nat.eqb_refl.
Qed.

Lemma play_out_cons (c : Ctrl) (e : Event) (es : list Event) :
  play_out c (e :: es) = play_out (react c e) es.
Proof. reflexivity. Qed.

(** The demo from the light of index [len done] on, its timers firing
    one after the other. *)
Lemma lightSequence_plays (timeoutMS : option Z) (r : Q) (rest : list Z) :
  forall (done : list Z) (c : Ctrl),
  wf c ->
  states.comDemo <= state (game c) ->
  (exists d : Z, timeoutMS = Some d /\ CONFIG.comPressMS < d) ->
  sequence (game c) = done ++ rest ->
  rest <> [] ->
  signals rest ->
  let c' :=
    play_out
      (final (lightSequence (length (abandoned c)) CONFIG.comPressMS
                timeoutMS (len done) c))
      (demoTimers (promises c) (length rest) r) in
  game c' = with_state states.playerSequence (game c) /\
  sounds c' = sounds c ++ map ButtonSound rest.
Proof.
  induction rest as [| x rest IH]; intros done c Hc Hplay Hpace Hseq Hne Hsig;
    [contradiction |].
  assert (Hx : 0 <= x <= 3) by (inversion Hsig; assumption).
  assert (Hrest : signals rest) by (inversion Hsig; assumption).
  pose proof (wf_lightSequence (length (abandoned c)) CONFIG.comPressMS
                timeoutMS (len done) c Hc Hplay eq_refl
                ltac:(unfold len; lia) eq_refl Hpace) as Hc2.
  revert Hc2. cbv zeta. unfold lightSequence. rewrite deref_live, Hseq.
  rewrite index_app_middle.
  assert (Hlen : len (done ++ x :: rest) - 1 = len done + len rest).
  { unfold len. rewrite length_app. cbn [length]. lia. }
  rewrite Hlen.
  destruct rest as [| y rest].
  - (* the last light *)
    intros _. change (len []) with 0. rewrite Z.add_0_r.
    rewrite Z.ltb_irrefl, Z.eqb_refl.
    rewrite lightColor_runs by assumption. cbn [final demoTimers length].
    rewrite !play_out_cons. cbn [play_out fold_left]. unfold react.
    cbn [handle].
    pose proof (wf_light x false c Hc ltac:(codes; lia)) as Hlit.
    pose proof (fire_newest (CbLightOff x (Some states.playerSequence))
                  (Some CONFIG.comPressMS) r (light x false c) Hlit) as Hfire.
    change (promises (light x false c)) with (promises c) in Hfire.
    rewrite Hfire. cbn [call final]. unfold sg.setState.
    cbn [with_game game sounds unlight with_lit].
    destruct (cancel_frame (Some (promises c))
                (timeout (CbLightOff x (Some states.playerSequence))
                   (Some CONFIG.comPressMS) (light x false c)))
      as (Hg & _ & _ & Hs).
    rewrite Hg, Hs. cbn [timeout game sounds].
    rewrite (proj1 (light_game x false c)), light_sounds.
    rewrite setState_valid by (codes; lia). split; reflexivity.
  - (* a light followed by others *)
    assert (Hlt : (len done <? len done + len (y :: rest)) = true).
    { apply Z.ltb_lt. unfold len. cbn [length]. lia. }
    rewrite Hlt. rewrite lightColor_runs by assumption.
    cbn [andThen final]. intros Hc2.
    set (seqt := CbLightSequence (length (abandoned c)) CONFIG.comPressMS
                   timeoutMS (len done)) in *.
    set (c2 := timeout seqt timeoutMS
                 (timeout (CbLightOff x None) (Some CONFIG.comPressMS)
                    (light x false c))) in *.
    pose proof (wf_fresh _ Hc) as Hfresh.
    change (demoTimers (promises c) (length (x :: y :: rest)) r)
      with (EvTimer (promises c) r :: EvTimer (S (promises c)) r ::
            demoTimers (S (S (promises c))) (length (y :: rest)) r).
    rewrite !play_out_cons. unfold react. cbn [handle].
    (* the light of [x] goes off *)
    rewrite (fire_found c2 (promises c) r
               {| promise := promises c; delay := Some CONFIG.comPressMS;
                  callback := CbLightOff x None |})
      by (apply find_first_of_two; exact Hfresh).
    cbn [callback call final].
    set (c2' := unlight x (cancel (Some (promises c)) c2)) in *.
    assert (Hc2' : wf c2') by (apply wf_unlight, wf_cancel, Hc2).
    (* the next step comes due *)
    rewrite (fire_found c2' (S (promises c)) r
               {| promise := S (promises c); delay := timeoutMS;
                  callback := seqt |})
      by (apply find_second_of_two; exact Hfresh).
    cbn [callback]. unfold seqt. cbn [call].
    set (c3 := cancel (Some (S (promises c))) c2') in *.
    assert (Hg3 : game c3 = game c)
      by (unfold c3, c2', c2;
          cbn [cancel with_pending unlight with_lit timeout game];
          apply light_game).
    assert (Hab3 : abandoned c3 = abandoned c)
      by (unfold c3, c2', c2;
          cbn [cancel with_pending unlight with_lit timeout abandoned];
          apply light_game).
    assert (Hp3 : promises c3 = S (S (promises c))) by reflexivity.
    assert (Hs3 : sounds c3 = sounds c ++ [ButtonSound x]) by reflexivity.
    assert (Hc3 : wf c3) by (apply wf_cancel, Hc2').
    specialize (IH (done ++ [x]) c3 Hc3).
    rewrite Hg3, Hab3, Hp3, Hs3 in IH.
    replace (len (done ++ [x])) with (len done + 1) in IH
      by (unfold len; rewrite length_app; cbn [length]; lia).
    destruct IH as [IHg IHs]; trivial.
    + rewrite Hseq, <- app_assoc. reflexivity.
    + discriminate.
    + split; [exact IHg |].
      rewrite IHs, <- app_assoc. reflexivity.
Qed.

(** ** The engine behind the controller *)

Lemma resetUI_game (c : Ctrl) : game (resetUI c) = game c.
Proof.
  unfold resetUI, clearTimeouts.
  cbn [unlightAll with_lit with_comTimeoutMS game].
  now rewrite clearLoop_spec.
Qed.

Lemma lightSequence_game (seq : nat) (lightMS : Z) (timeoutMS : option Z)
    (i : Z) (c : Ctrl) :
  game (final (lightSequence seq lightMS timeoutMS i c)) = game c.
Proof.
  unfold lightSequence.
  destruct (i <? _).
  - pose proof (lightColor_game (index (deref c seq) i) lightMS false None c)
      as (Hg & _).
    destruct (lightColor _ _ _ _ c) as [c' | c']; cbn [andThen final] in *;
      exact Hg.
  - destruct (i =? _); [apply lightColor_game | reflexivity].
Qed.

Lemma doComDemo_game (c : Ctrl) : game (final (doComDemo c)) = game c.
Proof. apply lightSequence_game. Qed.

Lemma ctrl_start_game (r : Q) (c : Ctrl) :
  game (final (ctrl.start r c)) = game c \/
  game (final (ctrl.start r c)) = start r (game c).
Proof.
  unfold ctrl.start. destruct (getPowerState c); [right | now left].
  rewrite doComDemo_game. unfold sg.start.
  cbn [with_game game with_abandoned]. now rewrite resetUI_game.
Qed.

Lemma pressColor_game (i : Z) (c : Ctrl) :
  game (final (ctrl.pressColor i c)) = snd (press i (game c)).
Proof.
  unfold ctrl.pressColor, sg.press.
  destruct (fst (press i (game c))); cbn [negb]; [| reflexivity].
  unfold sg.getState. cbn [with_game game].
  destruct (_ =? states.allCorrect); [| destruct (_ =? states.mistake)].
  - pose proof (lightColor_game (Some i) CONFIG.playerPressMS false None
                  (with_game (snd (press i (game c))) c)) as (Hg & _).
    destruct (lightColor _ _ _ _ _); cbn [andThen final] in *; exact Hg.
  - pose proof (lightColor_game (Some i) 1000 true None
                  (with_game (snd (press i (game c))) c)) as (Hg & _).
    destruct (lightColor _ _ _ _ _); cbn [andThen final] in *; exact Hg.
  - apply lightColor_game.
Qed.

Lemma call_game (func : Callback) (r : Q) (c : Ctrl) :
  exists ops : list Op, game (final (call func r c)) = run (game c) ops.
Proof.
  destruct func as [i [n |] | seq lightMS timeoutMS i | | | i | | |];
    cbn [call].
  - exists [OSetState n]. reflexivity.
  - exists []. reflexivity.
  - exists []. apply lightSequence_game.
  - exists [ONextRound r].
    assert (Hg : game (incrementSpeed (sg.nextRound r c)) =
                 nextRound r (game c)) by now rewrite incrementSpeed_game.
    destruct (sg.isState states.comDemo _);
      [now rewrite doComDemo_game |].
    destruct (sg.isState states.win _); cbn [final];
      [now rewrite win_game | exact Hg].
  - destruct (sg.getStrict c).
    + destruct (ctrl_start_game r c) as [Hg | Hg];
        [exists [] | exists [OStart r]]; exact Hg.
    + exists [OSetState states.comDemo]. now rewrite doComDemo_game.
  - exists []. cbn [final]. apply light_game.
  - exists []. reflexivity.
  - exists []. cbn [final]. apply win_game.
  - destruct (ctrl_start_game r c) as [Hg | Hg];
      [exists [] | exists [OStart r]]; exact Hg.
Qed.

Lemma react_game (c : Ctrl) (e : Event) :
  exists ops : list Op, game (react c e) = run (game c) ops.
Proof.
  unfold react. destruct e as [| r | | i | p r]; cbn [handle].
  - exists [OTogglePower]. cbn [final]. unfold ctrl.togglePower.
    now rewrite resetUI_game.
  - destruct (ctrl_start_game r c) as [Hg | Hg];
      [exists [] | exists [OStart r]]; exact Hg.
  - unfold ctrl.toggleStrict.
    destruct (getPowerState c); [exists [OToggleStrict] | exists []];
      reflexivity.
  - exists [OPress i]. apply pressColor_game.
  - unfold fire. destruct (find _ _) as [t |]; [| exists []; reflexivity].
    destruct (call_game (callback t) r (cancel (Some p) c)) as [ops Hops].
    exists ops. rewrite Hops. now rewrite (proj1 (cancel_frame _ _)).
Qed.

Lemma session_run (es : list Event) :
  exists ops : list Op, game (session es) = after ops.
Proof.
  unfold session.
  assert (Hgen : forall c, (exists ops, game c = after ops) ->
            exists ops, game (play_out c es) = after ops).
  { induction es as [| e es IH]; intros c Hc; [exact Hc |].
    cbn [play_out fold_left]. apply IH.
    destruct Hc as [ops Hops]. destruct (react_game c e) as [ops' Hops'].
    exists (ops ++ ops'). rewrite Hops', Hops. unfold after.
    now rewrite run_app. }
  apply Hgen. exists []. reflexivity.
Qed.

Lemma session_length_is_round (es : list Event) :
  length_is_round (game (session es)).
Proof.
  destruct (session_run es) as [ops ->]. unfold after.
  apply run_invariant; [apply step_length_is_round | reflexivity].
Qed.

(** X19: the controller changes the engine's variables only by calling
    its public operations: the engine's variables in a session are
    those after some run of [start], [nextRound], [press],
    [togglePower], [toggleStrict] and [setState] from the initial
    state.  In particular [sequence.length == round] and
    [0 <= pressN <= sequence.length] hold throughout every session. *)
Theorem session_is_an_engine_run : forall es : list Event,
  (exists ops : list Op, game (session es) = after ops) /\
  length_is_round (game (session es)) /\
  pressN_in_bounds (game (session es)).
Proof.
  intros es.
  split; [apply session_run |].
  split; [apply session_length_is_round |].
  destruct (session_run es) as [ops ->]. unfold after.
  apply run_invariant; [apply step_pressN_in_bounds |].
  unfold pressN_in_bounds. cbn. lia.
Qed.

(** X20: a demo plays the whole sequence and hands over.  In a game
    (state [comDemo] or later), with clicks and random values in range,
    [doComDemo] followed by the firing of its timers, each step in
    turn, plays the sounds of the sequence in order, first to last,
    and leaves the engine in [playerSequence] with nothing else
    changed. *)
Theorem demo_plays_the_sequence : forall (es : list Event) (r : Q),
  Forall event_in_range es ->
  states.comDemo <= state (game (session es)) ->
  let c := session es in
  let c' :=
    play_out (final (doComDemo c))
      (demoTimers (promises c) (length (sequence (game c))) r) in
  game c' =
    {| state := states.playerSequence; round := round (game c);
       pressN := pressN (game c); strict := strict (game c);
       sequence := sequence (game c) |} /\
  sounds c' = sounds c ++ map ButtonSound (sequence (game c)).
Proof.
  intros es r Hes Hplay c c'.
  pose proof (wf_session es) as Hc. fold c in Hc, Hplay.
  pose proof (session_signals es Hes) as Hsig. fold c in Hsig.
  pose proof (session_length_is_round es) as Hlen. fold c in Hlen.
  pose proof (wf_playing _ Hc Hplay) as Hround.
  unfold length_is_round in Hlen.
  assert (Hne : sequence (game c) <> []).
  { intros Hnil. rewrite Hnil in Hlen. cbn in Hlen. lia. }
  assert (Hpace : exists d : Z,
            comTimeoutMS c = Some d /\ CONFIG.comPressMS < d).
  { rewrite (wf_speed _ Hc) by (codes; lia).
    exists (speedFor (round (game c))). split; [reflexivity |].
    pose proof (speedFor_bounds (round (game c))).
    unfold CONFIG.comPressMS. lia. }
  exact (lightSequence_plays (comTimeoutMS c) r (sequence (game c)) [] c
           Hc Hplay Hpace eq_refl Hne Hsig).
Qed.

(** The demo of a sequence of two, replayed. *)
Lemma demo_plays_the_sequence_witness :
  let c := session [EvTogglePower; EvStart (1 # 2); EvTimer 0 (1 # 2);
                    EvPressColor 1; EvTimer 2 (9 # 10)] in
  sequence (game c) = [1; 3] /\
  sounds (play_out (final (doComDemo c))
            (demoTimers (promises c) (length (sequence (game c))) (1 # 2))) =
    sounds c ++ [ButtonSound 1; ButtonSound 3].
Proof.
  intro c. split; [reflexivity |].
  apply (demo_plays_the_sequence
           [EvTogglePower; EvStart (1 # 2); EvTimer 0 (1 # 2);
            EvPressColor 1; EvTimer 2 (9 # 10)] (1 # 2)).
  - repeat constructor; (discriminate || reflexivity || (cbn; lia)).
  - vm_compute. discriminate.
Defined.

(** ** After a mistake, after a win *)

Lemma ctrl_start_on (r : Q) (c : Ctrl) :
  state (game c) <> states.powerOff ->
  game (final (ctrl.start r c)) =
    {| state := states.comDemo; round := 1; pressN := 0;
       strict := strict (game c); sequence := [randomSignal r] |} /\
  comTimeoutMS (final (ctrl.start r c)) = Some CONFIG.startComTimeoutMS.
Proof.
  intros Hon. unfold ctrl.start.
  rewrite (proj2 (getPowerState_true c) Hon).
  unfold doComDemo. split.
  - rewrite lightSequence_game. unfold sg.start.
    cbn [with_game game]. now rewrite start_eq, resetUI_game.
  - unfold lightSequence.
    set (c0 := sg.start r (resetUI c)).
    assert (H0 : comTimeoutMS c0 = Some CONFIG.startComTimeoutMS)
      by reflexivity.
    destruct (0 <? _).
    + pose proof (lightColor_game (index (deref c0 (sg.getSequence c0)) 0)
                    CONFIG.comPressMS false None c0) as (_ & _ & Hms).
      destruct (lightColor _ _ _ _ c0); cbn [andThen final] in *;
        cbn [timeout comTimeoutMS]; congruence.
    + destruct (0 =? _); [| exact H0].
      pose proof (lightColor_game (index (deref c0 (sg.getSequence c0)) 0)
                    CONFIG.comPressMS false
                    (Some states.playerSequence) c0) as (_ & _ & Hms).
      congruence.
Qed.

(** X21: when the timer set after a mistake fires, strict play decides:
    with [strict] the game starts over (round 1, a new one-signal
    sequence, the pause back to 1100 ms); without it the engine goes
    back to [comDemo] with the round and the sequence it had, for the
    demo to be shown again. *)
Theorem mistake_recovery : forall (es : list Event) (p : nat) (r : Q)
    (t : Timer),
  find (fun t => (promise t =? p)%nat) (pending (session es)) = Some t ->
  callback t = CbMistake ->
  let c := session es in
  let c' := react c (EvTimer p r) in
  (strict (game c) = true ->
     game c' =
       {| state := states.comDemo; round := 1; pressN := 0;
          strict := true; sequence := [randomSignal r] |} /\
     comTimeoutMS c' = Some 1100) /\
  (strict (game c) = false ->
     game c' =
       {| state := states.comDemo; round := round (game c);
          pressN := pressN (game c); strict := false;
          sequence := sequence (game c) |}).
Proof.
  intros es p r t Hfind Hcb c c'.
  pose proof (wf_session es) as Hc. fold c in Hc, Hfind.
  assert (Hon : state (game c) <> states.powerOff).
  { apply find_some in Hfind. destruct Hfind as [Hin _].
    pose proof (wf_timers _ Hc) as Hts.
    eapply Forall_forall in Hts; [| exact Hin].
    destruct Hts as (Hallowed & _). eapply allowed_not_off, Hallowed. }
  unfold c'. clear c'. clearbody c.
  unfold react. cbn [handle]. unfold fire. rewrite Hfind, Hcb.
  cbn [call]. unfold sg.getStrict.
  cbn [cancel with_pending game].
  split; intros Hstrict; rewrite Hstrict.
  - destruct (ctrl_start_on r
                (with_pending
                   (filter (fun t0 => negb (promise t0 =? p)%nat) (pending c))
                   c) Hon) as [Hg Hms].
    cbn [with_pending game] in Hg. rewrite Hstrict in Hg.
    split; [exact Hg | exact Hms].
  - rewrite doComDemo_game. unfold sg.setState. cbn [with_game game].
    rewrite setState_valid by (codes; lia).
    unfold with_state. cbn [with_pending game]. now rewrite Hstrict.
Qed.

(** A wrong button in round 1, without strict play. *)
Lemma mistake_recovery_witness :
  let c := session [EvTogglePower; EvStart (1 # 2); EvTimer 0 (1 # 2);
                    EvPressColor 0] in
  state (game c) = states.mistake /\
  game (react c (EvTimer 2 (1 # 2))) =
    {| state := states.comDemo; round := 1; pressN := 0; strict := false;
       sequence := [1] |}.
Proof.
  intro c. split; [reflexivity |].
  apply (mistake_recovery
           [EvTogglePower; EvStart (1 # 2); EvTimer 0 (1 # 2); EvPressColor 0]
           2 (1 # 2)
           {| promise := 2; delay := Some 1500; callback := CbMistake |});
    reflexivity.
Defined.

Lemma win_eq (second : bool) (c : Ctrl) :
  win second c =
    timeout (if second then CbStart else CbWinAgain) (Some 2000)
      (winLights c).
Proof. destruct second; reflexivity. Qed.

Lemma winLights_frame (c : Ctrl) :
  game (winLights c) = game c /\
  promises (winLights c) = (4 + promises c)%nat.
Proof.
  unfold winLights. cbn [timeout game promises].
  split; [apply light_game | reflexivity].
Qed.

Lemma fresh_timeout (func : Callback) (ms : option Z) (c : Ctrl) :
  fresh c -> fresh (timeout func ms c).
Proof.
  unfold fresh. intros Hc. cbn [timeout pending promises].
  apply Forall_app. split.
  - eapply Forall_impl; [| exact Hc]. cbn. intros t Ht. lia.
  - constructor; [cbn; lia | constructor].
Qed.

Lemma fresh_cancel (p : option nat) (c : Ctrl) : fresh c -> fresh (cancel p c).
Proof.
  unfold fresh. intros Hc. destruct p as [n |]; [| exact Hc].
  cbn [cancel with_pending pending promises].
  apply Forall_forall. intros t Ht. apply filter_In in Ht.
  destruct Ht as [Ht _]. eapply Forall_forall in Hc; eassumption.
Qed.

Lemma fresh_winLights (c : Ctrl) : fresh c -> fresh (winLights c).
Proof.
  intros Hc. unfold winLights. repeat apply fresh_timeout. exact Hc.
Qed.

Lemma fire_newest_fresh (func : Callback) (ms : option Z) (r : Q)
    (c : Ctrl) :
  fresh c ->
  fire (promises c) r (timeout func ms c) =
    call func r (cancel (Some (promises c)) (timeout func ms c)).
Proof.
  intros Hc. unfold fire. cbn [timeout pending].
  pose proof (find_newest (pending c)
                {| promise := promises c; delay := ms; callback := func |}
                Hc) as Hfind.
  cbn [promise] in Hfind. rewrite Hfind. reflexivity.
Qed.

(** A timer that only switches lights fires: it leaves the list of
    pending timers, and the engine, the pause and the promises stay. *)
Lemma fire_inert (c : Ctrl) (old rest : list Timer) (t : Timer) (r : Q)
    (p : nat) :
  pending c = old ++ t :: rest ->
  Forall (fun u => (promise u < p)%nat) old ->
  (p <= promise t)%nat ->
  Forall (fun u => (promise t < promise u)%nat) rest ->
  inert (callback t) ->
  pending (react c (EvTimer (promise t) r)) = old ++ rest /\
  game (react c (EvTimer (promise t) r)) = game c /\
  comTimeoutMS (react c (EvTimer (promise t) r)) = comTimeoutMS c /\
  promises (react c (EvTimer (promise t) r)) = promises c.
Proof.
  intros Hpending Hold Hp Hrest Hinert.
  assert (Hfind : find (fun u => (promise u =? promise t)%nat) (pending c) =
                  Some t).
  { rewrite Hpending, (find_old _ _ p) by assumption.
    cbn [find]. now rewrite Nat.eqb_refl. }
  assert (Hleft : pending (cancel (Some (promise t)) c) = old ++ rest).
  { cbn [cancel with_pending pending]. rewrite Hpending, filter_app.
    rewrite (filter_old _ p) by assumption. f_equal.
    cbn [filter]. rewrite Nat.eqb_refl. cbn [negb].
    clear Hpending. induction Hrest as [| u rest Hu _ IH]; [reflexivity |].
    cbn [filter]. destruct (Nat.eqb_spec (promise u) (promise t)); [lia |].
    cbn [negb]. now rewrite IH. }
  unfold react. cbn [handle]. rewrite (fire_found c _ r t Hfind).
  destruct (callback t) as [i [n |] | | | | i | | |]; try contradiction;
    cbn [call final]; repeat split; try exact Hleft;
    unfold light; cbn [negb]; reflexivity.
Qed.

(** The lights of the win animation, one after the other: what is
    left is the timer that continues it. *)
Lemma win_lights_run (second : bool) (r : Q) (c : Ctrl) :
  fresh c ->
  let p := promises c in
  let c' :=
    play_out (win second c)
      [EvTimer p r; EvTimer (1 + p) r; EvTimer (2 + p) r;
       EvTimer (3 + p) r] in
  pending c' =
    pending c ++
    [{| promise := 4 + p; delay := Some 2000;
        callback := if second then CbStart else CbWinAgain |}] /\
  game c' = game c /\ comTimeoutMS c' = comTimeoutMS c /\
  promises c' = (5 + p)%nat.
Proof.
  intros Hc p c'. unfold c'. clear c'.
  assert (H0 : pending (win second c) =
            pending c ++
            [{| promise := p; delay := Some 100; callback := CbWinLight 2 |};
             {| promise := 1 + p; delay := Some 225;
                callback := CbWinLight 3 |};
             {| promise := 2 + p; delay := Some 450;
                callback := CbWinLight 0 |};
             {| promise := 3 + p; delay := Some 1000;
                callback := CbWinOff |};
             {| promise := 4 + p; delay := Some 2000;
                callback := if second then CbStart else CbWinAgain |}]).
  { rewrite win_eq. unfold winLights.
    cbn [timeout pending promises light with_lit play negb].
    now rewrite <- !app_assoc. }
  assert (Hg0 : game (win second c) = game c) by apply win_game.
  assert (Hm0 : comTimeoutMS (win second c) = comTimeoutMS c)
    by (destruct second; reflexivity).
  assert (Hp0 : promises (win second c) = (5 + p)%nat)
    by (destruct second; reflexivity).
  rewrite !play_out_cons. cbn [play_out fold_left].
  destruct (fire_inert _ _ _ _ r p H0 Hc (Nat.le_refl _)) as (H1 & Hg1 & Hm1 & Hp1);
    [repeat constructor; cbn; lia | exact I |].
  cbn [promise] in *.
  destruct (fire_inert _ _ _ _ r p H1 Hc) as (H2 & Hg2 & Hm2 & Hp2);
    [cbn; lia | repeat constructor; cbn; lia | exact I |].
  cbn [promise] in *.
  destruct (fire_inert _ _ _ _ r p H2 Hc) as (H3 & Hg3 & Hm3 & Hp3);
    [cbn; lia | repeat constructor; cbn; lia | exact I |].
  cbn [promise] in *.
  destruct (fire_inert _ _ _ _ r p H3 Hc) as (H4 & Hg4 & Hm4 & Hp4);
    [cbn; lia | repeat constructor; cbn; lia | exact I |].
  cbn [promise] in *.
  repeat split; congruence.
Qed.

Lemma play_out_app (c : Ctrl) (es es' : list Event) :
  play_out c (es ++ es') = play_out (play_out c es) es'.
Proof. unfold play_out. apply fold_left_app. Qed.

(** The ten timers of a win, in order: what remains to run is
    [ctrl.start], on a controller whose engine is as it was. *)
Lemma win_then_start (r : Q) (c : Ctrl) :
  fresh c ->
  exists c10 : Ctrl,
    play_out (win false c)
      (map (fun k => EvTimer (k + promises c) r) (seq 0 10)) =
    final (ctrl.start r c10) /\
    game c10 = game c.
Proof.
  intros Hc.
  change (map (fun k => EvTimer (k + promises c) r) (seq 0 10))
    with ([EvTimer (promises c) r; EvTimer (1 + promises c) r;
           EvTimer (2 + promises c) r; EvTimer (3 + promises c) r] ++
          EvTimer (4 + promises c) r ::
          [EvTimer (5 + promises c) r; EvTimer (1 + (5 + promises c)) r;
           EvTimer (2 + (5 + promises c)) r;
           EvTimer (3 + (5 + promises c)) r] ++
          [EvTimer (4 + (5 + promises c)) r]).
  rewrite play_out_app.
  destruct (win_lights_run false r c Hc) as (H4 & Hg4 & _ & Hp4).
  cbv zeta in H4, Hg4, Hp4.
  set (c4 := play_out (win false c) _) in *. clearbody c4.
  (* the first animation ends *)
  rewrite play_out_cons. unfold react at 1. cbn [handle].
  rewrite (fire_found c4 (4 + promises c) r
             {| promise := 4 + promises c; delay := Some 2000;
                callback := CbWinAgain |})
    by (rewrite H4, (find_old _ _ (promises c)) by (trivial; lia);
        cbn [find promise]; now rewrite Nat.eqb_refl).
  cbn [callback call final].
  set (c5 := cancel (Some (4 + promises c)%nat) c4) in *.
  assert (H5 : pending c5 = pending c).
  { unfold c5. cbn [cancel with_pending pending]. rewrite H4, filter_app.
    rewrite (filter_old _ (promises c)) by (trivial; lia).
    cbn [filter promise]. rewrite Nat.eqb_refl. apply app_nil_r. }
  destruct (cancel_frame (Some (4 + promises c)%nat) c4)
    as (Hg5 & _ & Hp5 & _).
  fold c5 in Hg5, Hp5. rewrite Hg4 in Hg5. rewrite Hp4 in Hp5.
  assert (Hc5 : fresh c5).
  { unfold fresh. rewrite H5, Hp5.
    eapply Forall_impl; [| exact Hc]. cbn. intros t Ht. lia. }
  clearbody c5.
  (* the second animation *)
  rewrite <- Hp5. rewrite play_out_app.
  destruct (win_lights_run true r c5 Hc5) as (H9 & Hg9 & _ & Hp9).
  cbv zeta in H9, Hg9, Hp9.
  set (c9 := play_out (win true c5) _) in *. clearbody c9.
  cbn [play_out fold_left]. unfold react. cbn [handle].
  rewrite (fire_found c9 (4 + promises c5) r
             {| promise := 4 + promises c5; delay := Some 2000;
                callback := CbStart |})
    by (rewrite H9, (find_old _ _ (promises c5)) by (trivial; lia);
        cbn [find promise]; now rewrite Nat.eqb_refl).
  cbn [callback call].
  exists (cancel (Some (4 + promises c5)%nat) c9).
  split; [reflexivity |].
  rewrite (proj1 (cancel_frame _ c9)). now rewrite Hg9, Hg5.
Qed.

(** X22: a win restarts the game by itself.  The timers of the
    animation [win()], which the controller starts in the state [win],
    come due in the order of their creation; the last one plays the
    animation a second time, and the last one of the second calls
    [ctrl.start]: once all ten have fired, the power being on, the
    engine is in round 1 of a new game and the pause of the demo is
    back to 1100 ms. *)
Theorem win_starts_a_new_game : forall (es : list Event) (r : Q),
  state (game (session es)) <> states.powerOff ->
  let c := session es in
  let c' :=
    play_out (win false c)
      (map (fun k => EvTimer (k + promises c) r) (seq 0 10)) in
  game c' =
    {| state := states.comDemo; round := 1; pressN := 0;
       strict := strict (game c); sequence := [randomSignal r] |} /\
  comTimeoutMS c' = Some 1100.
Proof.
  intros es r Hon c c'.
  pose proof (wf_fresh _ (wf_session es)) as Hc. fold c in Hc, Hon.
  destruct (win_then_start r c Hc) as (c10 & Hrun & Hg10).
  unfold c'. rewrite Hrun.
  destruct (ctrl_start_on r c10) as [Hg Hms]; [now rewrite Hg10 |].
  rewrite Hg10 in Hg. split; [exact Hg | exact Hms].
Qed.

Lemma win_starts_a_new_game_witness :
  let c := session [EvTogglePower; EvStart (1 # 2)] in
  game (play_out (win false c)
          (map (fun k => EvTimer (k + promises c) (9 # 10)) (seq 0 10))) =
    {| state := states.comDemo; round := 1; pressN := 0; strict := false;
       sequence := [3] |}.
Proof.
  intro c.
  apply (win_starts_a_new_game [EvTogglePower; EvStart (1 # 2)] (9 # 10)).
  vm_compute. discriminate.
Defined.

(** ** After a round repeated without fault *)

(** X23: when the timer set after the last correct press fires, the
    engine has a round more, one more signal at the end of the
    sequence and is in [comDemo]; at round [MAXROUND] it is in [win]
    instead, round and sequence as they were.  The press counter is
    back to 0 either way. *)
Theorem all_correct_advances_the_round : forall (es : list Event) (p : nat)
    (r : Q) (t : Timer),
  find (fun t => (promise t =? p)%nat) (pending (session es)) = Some t ->
  callback t = CbNextRound ->
  let c := session es in
  let c' := react c (EvTimer p r) in
  (round (game c) < MAXROUND ->
     game c' =
       {| state := states.comDemo; round := round (game c) + 1;
          pressN := 0; strict := strict (game c);
          sequence := sequence (game c) ++ [randomSignal r] |}) /\
  (round (game c) = MAXROUND ->
     game c' =
       {| state := states.win; round := MAXROUND; pressN := 0;
          strict := strict (game c); sequence := sequence (game c) |}).
Proof.
  intros es p r t Hfind Hcb c c'. fold c in Hfind.
  unfold c'. clear c'. clearbody c.
  unfold react. cbn [handle]. rewrite (fire_found c p r t Hfind), Hcb.
  cbn [call].
  assert (Hg : game (incrementSpeed (sg.nextRound r (cancel (Some p) c))) =
               nextRound r (game c)).
  { rewrite incrementSpeed_game. unfold sg.nextRound.
    cbn [with_game game]. now rewrite (proj1 (cancel_frame _ _)). }
  assert (Hgame : game
            (final
               (if sg.isState states.comDemo
                     (incrementSpeed (sg.nextRound r (cancel (Some p) c)))
                then doComDemo
                       (incrementSpeed (sg.nextRound r (cancel (Some p) c)))
                else if sg.isState states.win
                          (incrementSpeed
                             (sg.nextRound r (cancel (Some p) c)))
                     then Done (win false
                                  (incrementSpeed
                                     (sg.nextRound r (cancel (Some p) c))))
                     else Done (incrementSpeed
                                  (sg.nextRound r (cancel (Some p) c))))) =
            nextRound r (game c)).
  { destruct (sg.isState states.comDemo _);
      [now rewrite doComDemo_game |].
    destruct (sg.isState states.win _); cbn [final];
      [now rewrite win_game | exact Hg]. }
  rewrite Hgame. split; intros Hround.
  - now rewrite nextRound_more by lia.
  - rewrite nextRound_full by lia. now rewrite Hround.
Qed.

(** Round 1 repeated: the second round begins. *)
Lemma all_correct_advances_the_round_witness :
  let c := session [EvTogglePower; EvStart (1 # 2); EvTimer 0 (1 # 2);
                    EvPressColor 1] in
  state (game c) = states.allCorrect /\
  game (react c (EvTimer 2 (9 # 10))) =
    {| state := states.comDemo; round := 2; pressN := 0; strict := false;
       sequence := [1; 3] |}.
Proof.
  intro c. split; [reflexivity |].
  apply (all_correct_advances_the_round
           [EvTogglePower; EvStart (1 # 2); EvTimer 0 (1 # 2); EvPressColor 1]
           2 (9 # 10)
           {| promise := 2; delay := Some 1600; callback := CbNextRound |});
    reflexivity.
Defined.
